(** * Security News Bot: RSS -> Groq -> gTTS -> RVC -> Telegram

    A shallow embedding of [.github/workflows/main.py] and the properties
    of its pipeline.  Python values are modelled as follows.

    - [str] is a list of Unicode code points, so that slicing ([[:4000]]),
      [str.replace] and [str.strip] count characters as Python does.
    - A [datetime] with [tzinfo=timezone.utc] is the number of microseconds
      since the epoch; a feedparser [struct_time] is the record of its
      calendar fields, which [datetime(...)] checks and may refuse with
      [ValueError].
    - The outside world (feeds, Groq, gTTS, ffmpeg, RVC, Telegram, the
      clock, the temporary-file namer, the model archive server) is an
      [env] of oracles.  Every oracle is indexed by the length of the trace
      of external calls made so far, so the same request may be answered
      differently at different moments of a run.  A request to a service
      may get no answer at all, and a tool that fails may leave anything
      at its output path; the oracles decide.
    - Effects are explicit: a computation takes a [world] (temporary files,
      the entries of the model cache directory, the trace) and either
      returns a value or raises, in both cases with the world it leaves
      behind. *)

From Stdlib Require Import ZArith NArith Ascii String List Lia.
From stdpp Require Import base gmap list strings pretty.

Local Open Scope Z_scope.

(** ** Python strings *)

Abbreviation str := (list N).

(** Decoder for the UTF-8 bytes of a literal. *)
Fixpoint utf8_decode (bs : list N) : str :=
  match bs with
  | [] => []
  | b :: r =>
      if (b <? 128)%N then b :: utf8_decode r
      else if (b <? 224)%N then
        match r with
        | b1 :: r' => ((b - 192) * 64 + (b1 - 128))%N :: utf8_decode r'
        | _ => []
        end
      else if (b <? 240)%N then
        match r with
        | b1 :: b2 :: r' =>
            ((b - 224) * 4096 + (b1 - 128) * 64 + (b2 - 128))%N :: utf8_decode r'
        | _ => []
        end
      else
        match r with
        | b1 :: b2 :: b3 :: r' =>
            ((b - 240) * 262144 + (b1 - 128) * 4096 + (b2 - 128) * 64 + (b3 - 128))%N
              :: utf8_decode r'
        | _ => []
        end
  end.

(** [u "..."] is the Python literal ["..."]. *)
Definition u (s : string) : str :=
  utf8_decode (map N_of_ascii (list_ascii_of_string s)).

(** ["\n"] *)
Definition nl : str := [10%N].

Definition str_eqb (a b : str) : bool := bool_decide (a = b).

(** [bool(s)]: the empty string is falsy. *)
Definition truthy (s : str) : bool :=
  match s with [] => false | _ => true end.

Fixpoint startswith (s p : str) {struct p} : bool :=
  match p, s with
  | [], _ => true
  | _ :: _, [] => false
  | a :: p', b :: s' => (a =? b)%N && startswith s' p'
  end.

Definition endswith (s p : str) : bool := startswith (rev s) (rev p).

(** [s.replace(old, new)] for a non-empty [old]: scanning from the left,
    every non-overlapping occurrence of [old] is replaced.  [skip] counts
    the characters of a matched occurrence still to be passed over. *)
Fixpoint replace_from (old new : str) (skip : nat) (s : str) : str :=
  match s with
  | [] => []
  | c :: s' =>
      match skip with
      | S k => replace_from old new k s'
      | O =>
          if startswith s old
          then new ++ replace_from old new (Nat.pred (length old)) s'
          else c :: replace_from old new O s'
      end
  end.

Definition replace (s old new : str) : str := replace_from old new O s.

(** The number of occurrences [replace] finds: [s.count(old)]. *)
Fixpoint count_from (old : str) (skip : nat) (s : str) : nat :=
  match s with
  | [] => O
  | c :: s' =>
      match skip with
      | S k => count_from old k s'
      | O =>
          if startswith s old
          then S (count_from old (Nat.pred (length old)) s')
          else count_from old O s'
      end
  end.

Definition count (s old : str) : nat := count_from old O s.

(** [str.isspace] on one character. *)
Definition isspace (c : N) : bool :=
  ((9 <=? c) && (c <=? 13) || (28 <=? c) && (c <=? 32)
   || (c =? 133) || (c =? 160) || (c =? 5760)
   || (8192 <=? c) && (c <=? 8202)
   || (c =? 8232) || (c =? 8233) || (c =? 8239) || (c =? 8287) || (c =? 12288))%N.

Fixpoint lstrip (s : str) : str :=
  match s with
  | c :: s' => if isspace c then lstrip s' else s
  | [] => []
  end.

Definition rstrip (s : str) : str := rev (lstrip (rev s)).

(** [s.strip()] *)
Definition strip (s : str) : str := rstrip (lstrip s).

(** [str(n)] for a non-negative integer. *)
Definition str_of_nat (n : nat) : str := u (pretty n).

(** ** Clock and dates *)

(** What [published_parsed] holds: a [time.struct_time], of which
    [val[:6]] reads the six calendar fields (the weekday, the day of the
    year and the DST flag are not read).  Nothing constrains the fields:
    feedparser fills them from the text of the feed. *)
Record struct_time := {
  tm_year : Z;
  tm_mon : Z;
  tm_mday : Z;
  tm_hour : Z;
  tm_min : Z;
  tm_sec : Z;
}.

(** Microseconds since the epoch: an aware UTC [datetime]. *)
Definition datetime := Z.

Definition is_leap (year : Z) : bool :=
  (year mod 4 =? 0) && (negb (year mod 100 =? 0) || (year mod 400 =? 0)).

Definition days_in_month (year month : Z) : Z :=
  if month =? 2 then (if is_leap year then 29 else 28)
  else if (month =? 4) || (month =? 6) || (month =? 9) || (month =? 11) then 30
  else 31.

(** The days before January 1st of [year], counted from year 1. *)
Definition days_before_year (year : Z) : Z :=
  let y := year - 1 in y * 365 + y / 4 - y / 100 + y / 400.

(** The days of [year] before the first day of [month]. *)
Definition days_before_month (year month : Z) : Z :=
  foldr (fun m days => days_in_month year m + days) 0
    (map Z.of_nat (seq 1 (Z.to_nat (month - 1)))).

(** [date(year, month, day).toordinal()]: January 1st of year 1 is day 1. *)
Definition toordinal (year month day : Z) : Z :=
  days_before_year year + days_before_month year month + day.

(** The range checks of the [datetime] constructor ([MINYEAR] is 1 and
    [MAXYEAR] is 9999; a leap second is refused). *)
Definition valid_date (val : struct_time) : bool :=
  (1 <=? tm_year val) && (tm_year val <=? 9999)
  && (1 <=? tm_mon val) && (tm_mon val <=? 12)
  && (1 <=? tm_mday val) && (tm_mday val <=? days_in_month (tm_year val) (tm_mon val))
  && (0 <=? tm_hour val) && (tm_hour val <=? 23)
  && (0 <=? tm_min val) && (tm_min val <=? 59)
  && (0 <=? tm_sec val) && (tm_sec val <=? 59).

(** The instant the fields denote, in microseconds since 1970-01-01
    (whose ordinal is 719163). *)
Definition timestamp (val : struct_time) : datetime :=
  ((toordinal (tm_year val) (tm_mon val) (tm_mday val) - 719163) * 86400
   + tm_hour val * 3600 + tm_min val * 60 + tm_sec val) * 1000000.

(** [datetime( *val[:6], tzinfo=timezone.utc)]: [None] when the
    constructor raises [ValueError]. *)
Definition datetime_utc (val : struct_time) : option datetime :=
  if valid_date val then Some (timestamp val) else None.

(** [timedelta(hours=h)] *)
Definition timedelta_hours (h : Z) : Z := h * 3600 * 1000000.

(** ** Configuration *)

Definition FEEDS : list (str * str) :=
  [ (u "🔴 BleepingComputer", u "https://www.bleepingcomputer.com/feed/");
    (u "🔴 The Hacker News",  u "https://feeds.feedburner.com/TheHackersNews");
    (u "🔴 Kaspersky Blog",   u "https://www.kaspersky.com/blog/feed/");
    (u "🔴 BlockThreat",      u "https://blockthreat.io/feed/");
    (u "🔴 Objective-See",    u "https://objective-see.org/rss.xml") ].

Definition MAX_ARTICLES_PER_BLOG : nat := 2.
Definition LOOKBACK_HOURS : Z := 24.

(** ** Data *)

(** A feedparser entry: the fields the bot reads.  For the four text
    fields [None] is an absent key; a key that is present holds a string,
    as feedparser stores them.  For the two timestamps [None] is an absent
    attribute or one feedparser left as [None] (a date it could not
    parse). *)
Record entry := {
  e_title : option str;
  e_link : option str;
  e_summary : option str;
  e_description : option str;
  published_parsed : option struct_time;
  updated_parsed : option struct_time;
}.

(** The dict built at lines 65-70. *)
Record article := {
  title : str;
  link : str;
  content : str;
  pub : datetime;
}.

(** What an audio file holds, by how it was produced. *)
Inductive audio :=
| Blank
| Speech (text : str)
| Transcoded (a : audio)
| Voiced (pth : str) (index_path : option str) (a : audio)
| Partial.

Inductive tg_request :=
| SendMessage (text : str)
| SendAudio (caption : str) (data : audio).

Record response := { ok : bool; text : str }.

(** The answer to the archive download: no answer at all, or a status and
    a body which is a zip archive with the listed members, or not a zip
    archive at all.  A member is named as [zipfile] extracts it: a
    relative path with [/] between its components; a name ending in [/]
    is a folder. *)
Inductive http_result :=
| ConnectionFailed
| HttpStatus (status_ok : bool) (zip_members : option (list str)).

(** The lines the bot prints, by print site. *)
Inductive log_line :=
| LogBanner
| LogRssError (url : str)
| LogGroqError
| LogModelCached (pth : str)
| LogModelDownloading (url : str)
| LogModelReady (pth : str)
| LogModelFailed
| LogBlog (blog_name : str)
| LogNoNewArticles
| LogArticle (title70 : str)
| LogSummary (summary80 : str)
| LogRvcOk
| LogRvcError
| LogTgAudioError (text200 : str)
| LogSent
| LogBlank
| LogSilent
| LogDone (total_sent : nat).

(** External calls, in the order they happen. *)
Inductive event :=
| Stdout (l : log_line)
| FeedParse (url : str) (ok : bool)
| GroqCreate (prompt : str) (ok : bool)
| GttsSave (text out_path : str) (ok : bool)
| HttpGet (url : str) (ok : bool)
| Ffmpeg (src dst : str) (ok : bool)
| RvcLoadModel (pth : str) (ok : bool)
| RvcInferFile (src dst : str) (ok : bool)
| TgPost (req : tg_request) (ok : bool)
| TgPostError (req : tg_request)
| Sleep (secs : nat).

Inductive exn :=
| FeedError
| ValueError
| GroqError
| IndexError
| AttributeError
| GttsError
| RequestException
| HTTPError
| BadZipFile
| FileNotFoundError
| CalledProcessError
| ImportError
| RvcError.

(** ** The world and the oracles *)

Record world := {
  fs : gmap str audio;      (* temporary audio files, by path *)
  cache : list str;         (* the files and folders below
                               MODEL_CACHE_DIR, as relative paths, in
                               the order a directory walk meets them:
                               a folder before what it holds *)
  trace : list event;
}.

Record env := {
  HOME : str;
  HF_MODEL_URL : str;
  now_utc : nat -> datetime;
  strftime_date : datetime -> str;             (* "%d.%m.%Y" *)
  feedparser_parse : nat -> str -> option (list entry);
  groq_create : nat -> str -> option (list (option str));
  gtts_save : nat -> str -> bool;
  mkstemp : nat -> str;
  requests_get : nat -> str -> http_result;
  ffmpeg_run : nat -> str -> str -> bool;
  rvc_import : nat -> bool;                    (* [rvc_python] can be imported *)
  rvc_load_model : nat -> str -> bool;
  rvc_infer_file : nat -> str -> option str -> audio -> bool;
  leftover : nat -> str -> option audio;       (* what a failing tool leaves
                                                  at its output path: [None]
                                                  when it did not touch it *)
  tg_post : nat -> tg_request -> option response;
                                               (* [None]: [requests.post]
                                                  raises, no response *)
}.

Definition empty_world : world := {| fs := ∅; cache := []; trace := [] |}.

(** ** Computations that may raise *)

Inductive result (A : Type) :=
| Ok (a : A) (w : world)
| Raise (e : exn) (w : world).
Arguments Ok {A} a w.
Arguments Raise {A} e w.

Definition M (A : Type) := world -> result A.

Definition ret {A} (a : A) : M A := fun w => Ok a w.

Definition bind {A B} (m : M A) (k : A -> M B) : M B :=
  fun w => match m w with
           | Ok a w' => k a w'
           | Raise e w' => Raise e w'
           end.

Definition raise {A} (e : exn) : M A := fun w => Raise e w.

(** [try: m  except Exception as e: h e] *)
Definition try_except {A} (m : M A) (h : exn -> M A) : M A :=
  fun w => match m w with
           | Ok a w' => Ok a w'
           | Raise e w' => h e w'
           end.

(** The outcome of a computation that touches nothing outside. *)
Inductive checked (A : Type) :=
| Value (a : A)
| Error (e : exn).
Arguments Value {A} a.
Arguments Error {A} e.

Definition lift {A} (c : checked A) : M A :=
  fun w => match c with
           | Value a => Ok a w
           | Error e => Raise e w
           end.

Declare Scope py_scope.
Delimit Scope py_scope with py.
Notation "x <- m ;; k" := (bind m (fun x => k))
  (at level 100, m at next level, right associativity) : py_scope.
Notation "m ;;; k" := (bind m (fun _ => k))
  (at level 100, right associativity) : py_scope.
Local Open Scope py_scope.

(** The world a computation leaves behind, whatever the outcome. *)
Definition world_of {A} (r : result A) : world :=
  match r with Ok _ w => w | Raise _ w => w end.

(** The world after the given calls were recorded. *)
Definition record_events (evs : list event) (w : world) : world :=
  {| fs := fs w; cache := cache w; trace := trace w ++ evs |}.

Definition emit (ev : event) : M unit :=
  fun w => Ok tt (record_events [ev] w).

Definition print (l : log_line) : M unit := emit (Stdout l).

(** The moment of a call: the number of external calls made before it. *)
Definition tick : M nat := fun w => Ok (length (trace w)) w.

(** [for x in xs: s = body x s], with the loop's variables in [s]. *)
Fixpoint for_each {A S} (body : A -> S -> M S) (xs : list A) (s : S) : M S :=
  match xs with
  | [] => ret s
  | x :: rest => s' <- body x s ;; for_each body rest s'
  end.

(** *** Temporary files *)

Definition put_file (path : str) (a : audio) (w : world) : world :=
  {| fs := <[path := a]> (fs w); cache := cache w; trace := trace w |}.

Definition drop_files (paths : list str) (w : world) : world :=
  {| fs := foldl (fun files path => delete path files) (fs w) paths;
     cache := cache w; trace := trace w |}.

Definition write_file (path : str) (a : audio) : M unit :=
  fun w => Ok tt (put_file path a w).

(** [open(path, "rb").read()] *)
Definition read_file (path : str) : M audio :=
  fun w => match fs w !! path with
           | Some a => Ok a w
           | None => Raise FileNotFoundError w
           end.

Definition lookup_file (path : str) : M (option audio) :=
  fun w => Ok (fs w !! path) w.

(** [os.path.exists] *)
Definition path_exists (path : str) : M bool :=
  fun w => Ok (bool_decide (is_Some (fs w !! path))) w.

(** [os.unlink] on an existing file *)
Definition unlink (path : str) : M unit :=
  fun w => Ok tt (drop_files [path] w).

(** [for f in paths: if os.path.exists(f): os.unlink(f)] *)
Fixpoint unlink_existing (paths : list str) : M unit :=
  match paths with
  | [] => ret tt
  | f :: rest =>
      b <- path_exists f ;;
      (if b then unlink f else ret tt) ;;;
      unlink_existing rest
  end.

(** ** The program *)

Section Program.

Variable E : env.

(** One external call answered by a yes/no oracle: the oracle is asked at
    the current moment and the call is recorded with its outcome. *)
Definition external (ev : bool -> event) (oracle : nat -> bool) : M bool :=
  t <- tick ;;
  let b := oracle t in
  emit (ev b) ;;;
  ret b.

(** The files after a tool writing to [dst] has failed at moment [t]:
    whatever it left there is on disk. *)
Definition littered (t : nat) (dst : str) (w : world) : world :=
  match leftover E t dst with
  | Some a => put_file dst a w
  | None => w
  end.

Definition fail_leaving {A} (t : nat) (dst : str) (e : exn) : M A :=
  fun w => Raise e (littered t dst w).

(** [datetime.now(timezone.utc)] *)
Definition datetime_now : M datetime :=
  t <- tick ;; ret (now_utc E t).

(** [time.sleep] *)
Definition sleep (secs : nat) : M unit := emit (Sleep secs).

(** *** RSS *)

(** Lines 55-60: the first of the listed attributes that is set, as a
    [datetime]; the constructor's [ValueError] is not caught. *)
Fixpoint first_parsed (attrs : list (entry -> option struct_time)) (e : entry)
  : checked (option datetime) :=
  match attrs with
  | [] => Value None
  | attr :: rest =>
      match attr e with
      | Some val =>
          match datetime_utc val with
          | Some pub => Value (Some pub)
          | None => Error ValueError
          end
      | None => first_parsed rest e
      end
  end.

Definition entry_pub (e : entry) : checked (option datetime) :=
  first_parsed [published_parsed; updated_parsed] e.

(** Lines 65-70. *)
Definition make_article (e : entry) (pub : datetime) : article :=
  {| title := strip (default (u "Без заголовка") (e_title e));
     link := default [] (e_link e);
     content := take 4000 (default (default [] (e_description e)) (e_summary e));
     pub := pub |}.

(** Lines 54-73: the loop over [feed.entries], [articles] being the list
    built so far. *)
Fixpoint scan_entries (cutoff : datetime) (entries : list entry)
  (articles : list article) : checked (list article) :=
  match entries with
  | [] => Value articles
  | e :: rest =>
      match entry_pub e with
      | Error err => Error err
      | Value None => scan_entries cutoff rest articles
      | Value (Some pub) =>
          if pub <? cutoff then scan_entries cutoff rest articles
          else
            let articles' := articles ++ [make_article e pub] in
            if (MAX_ARTICLES_PER_BLOG <=? length articles')%nat
            then Value articles'
            else scan_entries cutoff rest articles'
      end
  end.

Definition call_feedparser (feed_url : str) : M (list entry) :=
  t <- tick ;;
  match feedparser_parse E t feed_url with
  | Some entries => emit (FeedParse feed_url true) ;;; ret entries
  | None => emit (FeedParse feed_url false) ;;; raise FeedError
  end.

(** The [try] of lines 45-49 covers the parse only; the loop runs outside
    it. *)
Definition get_recent_articles (feed_url : str) : M (list article) :=
  feed <- try_except
            (entries <- call_feedparser feed_url ;; ret (Some entries))
            (fun _ => print (LogRssError feed_url) ;;; ret None) ;;
  match feed with
  | None => ret []
  | Some entries =>
      now <- datetime_now ;;
      let cutoff := now - timedelta_hours LOOKBACK_HOURS in
      lift (scan_entries cutoff entries [])
  end.

(** *** Groq *)

Definition summary_prompt (title content : str) : str :=
  u "Ты — диктор новостей кибербезопасности. "
  ++ u "Напиши краткое резюме этой статьи НА РУССКОМ языке — ровно 3 предложения. "
  ++ u "Простым языком, без технического жаргона, без вступлений вроде 'Вот резюме:'. "
  ++ u "Только сам текст резюме." ++ nl ++ nl
  ++ u "Заголовок: " ++ title ++ nl ++ nl
  ++ u "Текст: " ++ content.

(** [client.chat.completions.create(...)]: raises, or answers with the
    [message.content] of each choice ([None] when a choice has none). *)
Definition groq_chat (prompt : str) : M (list (option str)) :=
  t <- tick ;;
  match groq_create E t prompt with
  | Some choices => emit (GroqCreate prompt true) ;;; ret choices
  | None => emit (GroqCreate prompt false) ;;; raise GroqError
  end.

Definition summarize_to_russian (title content : str) : M str :=
  let prompt := summary_prompt title content in
  try_except
    (choices <- groq_chat prompt ;;
     match choices with
     | [] => raise IndexError                       (* resp.choices[0] *)
     | None :: _ => raise AttributeError            (* None.strip() *)
     | Some message_content :: _ => ret (strip message_content)
     end)
    (fun _ => print LogGroqError ;;; ret (u "Новая статья: " ++ title)).

(** *** gTTS *)

(** [gTTS(text=text, lang="ru", slow=False)] and [tts.save(out_path)]. *)
Definition tts_to_mp3 (text out_path : str) : M unit :=
  t <- tick ;;
  saved <- external (GttsSave text out_path) (fun t => gtts_save E t text) ;;
  if saved then write_file out_path (Speech text)
  else fail_leaving t out_path GttsError.

(** *** RVC *)

Definition MODEL_CACHE_DIR : str := HOME E ++ u "/.rvc_models/kanevsky".

(** A relative path with no directory part: an entry of the directory
    itself. *)
Definition top_level (rel : str) : bool := bool_decide (47%N ∉ rel).

(** [os.path.dirname] of a relative path: what precedes its last [/]. *)
Fixpoint dirname (rel : str) : str :=
  match rel with
  | [] => []
  | c :: rest => if bool_decide (47%N ∈ rest) then c :: dirname rest else []
  end.

(** What [MODEL_CACHE_DIR.glob("*" + ext)] yields: the entries of the
    directory itself, files and folders alike, whose name ends with
    [ext].  (A name ends with [ext] exactly when the path does, [ext]
    holding no [/].) *)
Definition glob_files (ext : str) (entries : list str) : list str :=
  map (fun rel => MODEL_CACHE_DIR ++ u "/" ++ rel)
    (filter (fun rel => top_level rel && endswith rel ext) entries).

(** The entries of the folder [dir] whose name ends with [ext]. *)
Definition matches_in (dir ext : str) (entries : list str) : list str :=
  filter (fun rel => negb (top_level rel) && str_eqb (dirname rel) dir
                     && endswith rel ext) entries.

(** What [MODEL_CACHE_DIR.rglob("*" + ext)] yields: the walk visits the
    directory, then every folder below it, a folder before the folders
    it holds, and lists at each the matching entries, files and folders
    alike. *)
Definition rglob_files (ext : str) (entries : list str) : list str :=
  map (fun rel => MODEL_CACHE_DIR ++ u "/" ++ rel)
    (filter (fun rel => top_level rel && endswith rel ext) entries
     ++ flat_map (fun dir => matches_in dir ext entries) entries).

Definition glob (ext : str) : M (list str) :=
  fun w => Ok (glob_files ext (cache w)) w.

Definition rglob (ext : str) : M (list str) :=
  fun w => Ok (rglob_files ext (cache w)) w.

(** [rel] is the folder [dir] or lies below it. *)
Definition below (dir rel : str) : bool :=
  str_eqb rel dir || startswith rel (dir ++ u "/").

(** A new entry of the folder [dir] is listed after what [dir] already
    holds (at the end, for the directory itself). *)
Fixpoint place (dir rel : str) (entries : list str) : list str :=
  match entries with
  | [] => [rel]
  | f :: rest =>
      if existsb (below dir) rest then f :: place dir rel rest
      else if below dir f then f :: rel :: rest
      else f :: place dir rel rest
  end.

(** Creating [rel]: an existing entry keeps its place. *)
Definition add_entry (entries : list str) (rel : str) : list str :=
  if bool_decide (rel ∈ entries) then entries
  else place (dirname rel) rel entries.

(** The folders above a relative path, outermost first; [seen] is the part
    of the path already read. *)
Fixpoint ancestors (seen rest : str) : list str :=
  match rest with
  | [] => []
  | c :: rest' =>
      if (c =? 47)%N then seen :: ancestors (seen ++ [c]) rest'
      else ancestors (seen ++ [c]) rest'
  end.

(** What writing the file [rel], or extracting the archive member [rel],
    creates: the folders above it, then the file itself unless the name
    denotes a folder. *)
Definition created_by (rel : str) : list str :=
  ancestors [] rel ++ (if endswith rel (u "/") then [] else [rel]).

(** Writing files into the directory, or extracting them. *)
Definition add_files (rels entries : list str) : list str :=
  foldl (fun entries rel => foldl add_entry entries (created_by rel)) entries rels.

Definition remove_file (rel : str) (files : list str) : list str :=
  filter (fun r => negb (str_eqb r rel)) files.

Definition set_cache (files : list str) (w : world) : world :=
  {| fs := fs w; cache := files; trace := trace w |}.

Definition cache_add (rels : list str) : M unit :=
  fun w => Ok tt (set_cache (add_files rels (cache w)) w).

Definition cache_remove (rel : str) : M unit :=
  fun w => Ok tt (set_cache (remove_file rel (cache w)) w).

(** The directory after [model.zip] was saved, extracted and deleted. *)
Definition extracted (members files : list str) : list str :=
  remove_file (u "model.zip") (add_files members (add_files [u "model.zip"] files)).

(** [requests.get(url, stream=True, timeout=120)] and [raise_for_status]. *)
Definition requests_get_ok (url : str) : M (option (list str)) :=
  t <- tick ;;
  match requests_get E t url with
  | ConnectionFailed => emit (HttpGet url false) ;;; raise RequestException
  | HttpStatus false _ => emit (HttpGet url false) ;;; raise HTTPError
  | HttpStatus true body => emit (HttpGet url true) ;;; ret body
  end.

(** [index_files[0] if index_files else ""] *)
Definition first_or_empty (files : list str) : str :=
  match files with f :: _ => f | [] => [] end.

Definition download_model_if_needed : M (str * str) :=
  pth_files <- glob (u ".pth") ;;
  index_files <- glob (u ".index") ;;
  match pth_files with
  | pth :: _ =>
      print (LogModelCached pth) ;;;
      ret (pth, first_or_empty index_files)
  | [] =>
      print (LogModelDownloading (HF_MODEL_URL E)) ;;;
      body <- requests_get_ok (HF_MODEL_URL E) ;;
      cache_add [u "model.zip"] ;;;
      match body with
      | None => raise BadZipFile
      | Some members =>
          cache_add members ;;;
          cache_remove (u "model.zip") ;;;
          pth_files <- rglob (u ".pth") ;;
          index_files <- rglob (u ".index") ;;
          match pth_files with
          | [] => raise FileNotFoundError
          | pth :: _ => ret (pth, first_or_empty index_files)
          end
      end
  end.

(** [subprocess.run(["ffmpeg", "-y", "-i", src, ..., dst], check=True)]:
    fails when [src] is missing, or when ffmpeg cannot be started or exits
    non-zero. *)
Definition ffmpeg (src dst : str) : M unit :=
  input <- lookup_file src ;;
  t <- tick ;;
  match input with
  | None => emit (Ffmpeg src dst false) ;;; fail_leaving t dst CalledProcessError
  | Some a =>
      done <- external (Ffmpeg src dst) (fun t => ffmpeg_run E t src dst) ;;
      if done then write_file dst (Transcoded a)
      else fail_leaving t dst CalledProcessError
  end.

(** [rvc.infer_file(wav_in, wav_out)] on a loaded model. *)
Definition infer_file (model_pth : str) (index_path : option str)
  (wav_in wav_out : str) : M unit :=
  input <- lookup_file wav_in ;;
  t <- tick ;;
  match input with
  | None => emit (RvcInferFile wav_in wav_out false) ;;; fail_leaving t wav_out RvcError
  | Some a =>
      done <- external (RvcInferFile wav_in wav_out)
                (fun t => rvc_infer_file E t model_pth index_path a) ;;
      if done then write_file wav_out (Voiced model_pth index_path a)
      else fail_leaving t wav_out RvcError
  end.

(** The import of line 153 comes first and may fail; [RVCInference(...)]
    and [load_model] are one step, which succeeds or raises. *)
Definition apply_rvc (mp3_in mp3_out model_pth model_index : str) : M unit :=
  t <- tick ;;
  (if rvc_import E t then ret tt else raise ImportError) ;;;
  let wav_in := replace mp3_in (u ".mp3") (u "_in.wav") in
  let wav_out := replace mp3_in (u ".mp3") (u "_rvc.wav") in
  ffmpeg mp3_in wav_in ;;;
  loaded <- external (RvcLoadModel model_pth) (fun t => rvc_load_model E t model_pth) ;;
  (if loaded then ret tt else raise RvcError) ;;;
  let index_path := if truthy model_index then Some model_index else None in
  infer_file model_pth index_path wav_in wav_out ;;;
  ffmpeg wav_out mp3_out ;;;
  unlink_existing [wav_in; wav_out].

(** *** Telegram *)

(** [requests.post] to the bot API: it returns the channel's response,
    or raises when no response arrives (connection failure, timeout). *)
Definition post (req : tg_request) : M response :=
  t <- tick ;;
  match tg_post E t req with
  | Some resp => emit (TgPost req (ok resp)) ;;; ret resp
  | None => emit (TgPostError req) ;;; raise RequestException
  end.

Definition tg_send_text (text : str) : M unit :=
  post (SendMessage text) ;;; ret tt.

Definition audio_caption (title link : str) : str :=
  u "<b>" ++ title ++ u "</b>" ++ nl ++ nl
  ++ u "🔗 <a href='" ++ link ++ u "'>Читать полностью</a>".

Definition text_notice (title link : str) : str :=
  u "📄 <b>" ++ title ++ u "</b>" ++ nl ++ nl ++ u "🔗 " ++ link.

(** The record of one post made at moment [t]. *)
Definition post_event (t : nat) (req : tg_request) : event :=
  match tg_post E t req with
  | Some resp => TgPost req (ok resp)
  | None => TgPostError req
  end.

(** The calls one [tg_send_audio] makes at moment [t] for a file holding
    [data]: the audio post and, when it is refused, the text notice. *)
Definition delivery_events (t : nat) (title link : str) (data : audio) : list event :=
  let audio_post := SendAudio (audio_caption title link) data in
  let notice := SendMessage (text_notice title link) in
  match tg_post E t audio_post with
  | None => [TgPostError audio_post]
  | Some resp =>
      if ok resp then [TgPost audio_post true]
      else [TgPost audio_post false;
            Stdout (LogTgAudioError (take 200 (text resp)));
            post_event (S (S t)) notice]
  end.

(** Whether that [tg_send_audio] returns: every post it makes gets a
    response. *)
Definition delivery_returns (t : nat) (title link : str) (data : audio) : bool :=
  let audio_post := SendAudio (audio_caption title link) data in
  let notice := SendMessage (text_notice title link) in
  match tg_post E t audio_post with
  | None => false
  | Some resp => ok resp || bool_decide (is_Some (tg_post E (S (S t)) notice))
  end.

Definition tg_send_audio (title link audio_path : str) : M unit :=
  let caption := audio_caption title link in
  f <- read_file audio_path ;;
  resp <- post (SendAudio caption f) ;;
  if ok resp then ret tt
  else
    print (LogTgAudioError (take 200 (text resp))) ;;;
    tg_send_text (text_notice title link).

(** *** The main loop *)

(** The variables of [main] that outlive an article. *)
Record run_state := {
  use_rvc : bool;
  model_pth : str;
  model_index : str;
  total_sent : nat;
}.

(** Lines 218-228. *)
Definition resolve_model : M run_state :=
  let use_rvc := truthy (HF_MODEL_URL E) in
  if use_rvc then
    try_except
      (model <- download_model_if_needed ;;
       print (LogModelReady (fst model)) ;;;
       ret {| use_rvc := true; model_pth := fst model;
              model_index := snd model; total_sent := 0 |})
      (fun _ =>
         print LogModelFailed ;;;
         ret {| use_rvc := false; model_pth := []; model_index := [];
                total_sent := 0 |})
  else ret {| use_rvc := false; model_pth := []; model_index := [];
              total_sent := 0 |}.

(** [tempfile.NamedTemporaryFile(suffix=suffix, delete=False)]: an empty
    file whose name ends with [suffix]. *)
Definition named_temporary_file (suffix : str) : M str :=
  t <- tick ;;
  let name := mkstemp E t ++ suffix in
  write_file name Blank ;;;
  ret name.

(** Lines 266-274: the path of the audio to deliver. *)
Definition convert_voice (rs : run_state) (tts_path : str) : M str :=
  if use_rvc rs then
    let rvc_path := replace tts_path (u ".mp3") (u "_kanevsky.mp3") in
    try_except
      (apply_rvc tts_path rvc_path (model_pth rs) (model_index rs) ;;;
       print LogRvcOk ;;;
       ret rvc_path)
      (fun _ => print LogRvcError ;;; ret tts_path)
  else ret tts_path.

(** [total_sent += 1] *)
Definition count_sent (rs : run_state) : run_state :=
  {| use_rvc := use_rvc rs; model_pth := model_pth rs;
     model_index := model_index rs; total_sent := S (total_sent rs) |}.

(** Lines 250-263: the summary, and the path of the synthesized speech. *)
Definition synthesize (a : article) : M (str * str) :=
  print (LogArticle (take 70 (title a))) ;;;
  summary <- summarize_to_russian (title a) (content a) ;;
  print (LogSummary (take 80 summary)) ;;;
  tts_path <- named_temporary_file (u ".mp3") ;;
  tts_to_mp3 (title a ++ u ". " ++ summary) tts_path ;;;
  ret (summary, tts_path).

(** Lines 250-286: the body of the loop over articles. *)
Definition process_article (a : article) (rs : run_state) : M run_state :=
  speech <- synthesize a ;;
  let tts_path := snd speech in
  audio_path <- convert_voice rs tts_path ;;
  tg_send_audio (title a) (link a) audio_path ;;;
  let rs := count_sent rs in
  print LogSent ;;;
  unlink_existing [tts_path; audio_path] ;;;
  sleep 2 ;;;
  ret rs.

Definition blog_header (blog_name date_str : str) (n : nat) : str :=
  u "━━━━━━━━━━━━━━━━━━━━" ++ nl
  ++ blog_name ++ nl
  ++ u "📅 " ++ date_str ++ u " · " ++ str_of_nat n ++ u " "
  ++ (if (n =? 1)%nat then u "статья" else u "статьи").

(** Lines 233-288: the body of the loop over [FEEDS]. *)
Definition process_blog (feed : str * str) (rs : run_state) : M run_state :=
  let '(blog_name, feed_url) := feed in
  print (LogBlog blog_name) ;;;
  articles <- get_recent_articles feed_url ;;
  match articles with
  | [] => print LogNoNewArticles ;;; ret rs
  | _ =>
      now <- datetime_now ;;
      tg_send_text (blog_header blog_name (strftime_date E now) (length articles)) ;;;
      sleep 1 ;;;
      rs <- for_each process_article articles rs ;;
      print LogBlank ;;;
      ret rs
  end.

(** [main], returning its local variables. *)
Definition main : M run_state :=
  print LogBanner ;;;
  rs <- resolve_model ;;
  rs <- for_each process_blog FEEDS rs ;;
  (if (total_sent rs =? 0)%nat then print LogSilent
   else print (LogDone (total_sent rs))) ;;;
  ret rs.

End Program.

(** ** The feed reader, in the specification's words *)

(** An entry is eligible when it carries a publication or, failing that, a
    last-updated timestamp, and that timestamp is not older than the
    cutoff; the article is then built from it. *)
Definition eligible_article (cutoff : datetime) (e : entry) : option article :=
  match published_parsed e, updated_parsed e with
  | Some val, _ | None, Some val =>
      match datetime_utc val with
      | Some pub => if cutoff <=? pub then Some (make_article e pub) else None
      | None => None
      end
  | None, None => None
  end.

(** The entry carries at least one of the two timestamp fields. *)
Definition has_timestamp (e : entry) : bool :=
  match published_parsed e, updated_parsed e with
  | None, None => false
  | _, _ => true
  end.

(** The cutoff [get_recent_articles] computes when called in world [w]:
    the clock is read right after the feed was parsed. *)
Definition cutoff_at (E : env) (w : world) : datetime :=
  now_utc E (S (length (trace w))) - timedelta_hours LOOKBACK_HOURS.

(** The remote summarization call failed: it raised, or its answer has no
    first choice, or that choice has no text. *)
Definition summarization_failed (answer : option (list (option str))) : bool :=
  match answer with
  | Some (Some _ :: _) => false
  | _ => true
  end.

(** The calls made by the voice converter. *)
Definition conversion_event (ev : event) : Prop :=
  match ev with
  | Ffmpeg _ _ _ | RvcLoadModel _ _ | RvcInferFile _ _ _ => True
  | _ => False
  end.

(** The calls and prints made before the speech is synthesized. *)
Definition preparation_event (ev : event) : Prop :=
  match ev with
  | Stdout (LogArticle _) | Stdout LogGroqError | Stdout (LogSummary _)
  | GroqCreate _ _ => True
  | _ => False
  end.

(** The calls and prints of model acquisition. *)
Definition acquisition_event (ev : event) : Prop :=
  match ev with
  | HttpGet _ _ => True
  | Stdout (LogModelCached _) | Stdout (LogModelDownloading _)
  | Stdout (LogModelReady _) | Stdout LogModelFailed => True
  | _ => False
  end.

(** The audio a call posts, or tries to post, to the channel. *)
Definition posted_audio (ev : event) : option audio :=
  match ev with
  | TgPost (SendAudio _ data) _ | TgPostError (SendAudio _ data) => Some data
  | _ => None
  end.

(** What the loops of [main] may do in a run whose conversion switch is
    [rvc]: no model acquisition; and with the switch off, no call of the
    voice converter, and only synthesized speech in audio posts. *)
Definition pipeline_event (rvc : bool) (ev : event) : Prop :=
  ¬ acquisition_event ev ∧
  (rvc = false →
   ¬ conversion_event ev ∧
   ∀ data, posted_audio ev = Some data → ∃ text, data = Speech text).

(** [m] makes only calls allowed by [P], whether it returns or raises;
    when it returns, its value satisfies [Q]. *)
Definition confined {A} (P : event → Prop) (Q : A → Prop) (m : M A) : Prop :=
  ∀ w, ∃ d,
    trace (world_of (m w)) = trace w ++ d ∧ Forall P d ∧
    match m w with
    | Ok a _ => Q a
    | Raise _ _ => True
    end.

(** The string begins with a whitespace character. *)
Definition starts_with_space (s : str) : bool :=
  match s with
  | c :: _ => isspace c
  | [] => false
  end.

(** The audio posts the channel answered, in order: caption and data. *)
Definition audio_posts (evs : list event) : list (str * audio) :=
  omap (fun ev => match ev with
                  | TgPost (SendAudio caption data) _ => Some (caption, data)
                  | _ => None
                  end) evs.

(** The audio post that delivers an article whose summary is [summary]
    without voice conversion: its caption, and the synthesized speech. *)
Definition speech_post (a : article) (summary : str) : str * audio :=
  (audio_caption (title a) (link a), Speech (title a ++ u ". " ++ summary)).

(** The captions of the audio posts among the calls, in order. *)
Definition audio_captions (evs : list event) : list str :=
  omap (fun ev => match ev with
                  | TgPost (SendAudio caption _) _ => Some caption
                  | _ => None
                  end) evs.

(** The call is a post to the channel, answered or not. *)
Definition channel_post (ev : event) : Prop :=
  match ev with
  | TgPost _ _ | TgPostError _ => True
  | _ => False
  end.

(** The entry's publication timestamp is set, denotes a date and is older
    than the cutoff. *)
Definition stale_publication (cutoff : datetime) (e : entry) : bool :=
  match published_parsed e with
  | Some val =>
      match datetime_utc val with
      | Some pub => pub <? cutoff
      | None => false
      end
  | None => false
  end.

(** ** Sample runs *)

(** The fields of a timestamp. *)
Definition stamp (year month day hour minute second : Z) : struct_time :=
  {| tm_year := year; tm_mon := month; tm_mday := day;
     tm_hour := hour; tm_min := minute; tm_sec := second |}.

(** An entry titled [t] with the given timestamps. *)
Definition sample_entry (t : string) (published updated : option struct_time) : entry :=
  {| e_title := Some (u t); e_link := Some (u "https://news.example/" ++ u t);
     e_summary := Some (u "Details."); e_description := None;
     published_parsed := published; updated_parsed := updated |}.

(** An environment whose oracles answer the same way at every moment: the
    clock shows [now], every feed parses to [feed] (or fails), and the
    other services succeed or fail as the flags say. *)
Definition sample_env (model_url : str) (now : datetime)
  (feed : option (list entry)) (summary : option (list (option str)))
  (tts_ok : bool) (archive : http_result) (infer_ok audio_ok : bool) : env :=
  {| HOME := u "/home/runner";
     HF_MODEL_URL := model_url;
     now_utc := fun _ => now;
     strftime_date := fun _ => u "04.11.2026";
     feedparser_parse := fun _ _ => feed;
     groq_create := fun _ _ => summary;
     gtts_save := fun _ _ => tts_ok;
     mkstemp := fun t => u "/tmp/tmp" ++ str_of_nat t;
     requests_get := fun _ _ => archive;
     ffmpeg_run := fun _ _ _ => true;
     rvc_import := fun _ => true;
     rvc_load_model := fun _ _ => true;
     rvc_infer_file := fun _ _ _ _ => infer_ok;
     leftover := fun _ _ => None;
     tg_post := fun _ req =>
       match req with
       | SendAudio _ _ => Some {| ok := audio_ok; text := u "Bad Request" |}
       | SendMessage _ => Some {| ok := true; text := u "{}" |}
       end |}.

(** The environment [E] with a channel that gives no response to the
    requests chosen by [lost]. *)
Definition losing (lost : tg_request -> bool) (E : env) : env :=
  {| HOME := HOME E;
     HF_MODEL_URL := HF_MODEL_URL E;
     now_utc := now_utc E;
     strftime_date := strftime_date E;
     feedparser_parse := feedparser_parse E;
     groq_create := groq_create E;
     gtts_save := gtts_save E;
     mkstemp := mkstemp E;
     requests_get := requests_get E;
     ffmpeg_run := ffmpeg_run E;
     rvc_import := rvc_import E;
     rvc_load_model := rvc_load_model E;
     rvc_infer_file := rvc_infer_file E;
     leftover := leftover E;
     tg_post := fun t req => if lost req then None else tg_post E t req |}.

Definition is_text_post (req : tg_request) : bool :=
  match req with SendMessage _ => true | SendAudio _ _ => false end.

(** The environment [E] with tools that leave an unfinished file at their
    output path when they fail. *)
Definition littering (E : env) : env :=
  {| HOME := HOME E;
     HF_MODEL_URL := HF_MODEL_URL E;
     now_utc := now_utc E;
     strftime_date := strftime_date E;
     feedparser_parse := feedparser_parse E;
     groq_create := groq_create E;
     gtts_save := gtts_save E;
     mkstemp := mkstemp E;
     requests_get := requests_get E;
     ffmpeg_run := ffmpeg_run E;
     rvc_import := rvc_import E;
     rvc_load_model := rvc_load_model E;
     rvc_infer_file := rvc_infer_file E;
     leftover := fun _ _ => Some Partial;
     tg_post := tg_post E |}.

(** The run state of a run whose model was obtained. *)
Definition sample_state : run_state :=
  {| use_rvc := true;
     model_pth := u "/home/runner/.rvc_models/kanevsky/kanevsky.pth";
     model_index := []; total_sent := 0 |}.

(** Noon of 4 November 2026; the cutoff is then noon of the day before. *)
Definition sample_now : datetime := timestamp (stamp 2026 11 4 12 0 0).

Definition sample_cutoff : struct_time := stamp 2026 11 3 12 0 0.

Definition sample_article : article :=
  make_article (sample_entry "Zero-day" (Some (stamp 2026 11 4 11 0 0)) None)
    (timestamp (stamp 2026 11 4 11 0 0)).


(** * Properties *)

(** Case analysis on the condition of the outermost [if] of the goal. *)
Ltac case_cond :=
  match goal with |- context [if ?c then _ else _] => destruct c end.

(** Equal traces, up to the bracketing of [++]. *)
Ltac trace_eq :=
  repeat (progress (cbn [app]; rewrite <- ?app_assoc)); reflexivity.

(** Unfolds the plumbing of [M] (and nothing else) in the goal. *)
Ltac run_m :=
  cbv beta iota zeta delta
    [bind ret raise try_except tick emit print external datetime_now sleep
     write_file read_file lookup_file path_exists unlink lift fail_leaving].

(** Settles [pipeline_event] for an event given by its constructor. *)
Ltac event_ok :=
  split; [simpl; tauto|];
  let Hoff := fresh "Hoff" in
  intros Hoff;
  first [ discriminate Hoff
        | split; [simpl; tauto|];
          let Hposted := fresh "Hposted" in
          intros ? Hposted; simpl in Hposted; try discriminate Hposted;
          simplify_eq; eauto ].

(** ** Strings *)

Lemma startswith_length s p : startswith s p = true → (length p ≤ length s)%nat.
Proof.
  revert s. induction p as [|a p IH]; intros [|b s] H; simpl in *;
    [lia | lia | discriminate |].
  apply andb_true_iff in H as [_ H]. apply IH in H. lia.
Qed.

Lemma startswith_app p : ∀ s, startswith (p ++ s) p = true.
Proof.
  induction p as [|a p IH]; intros s; simpl; [reflexivity|].
  rewrite N.eqb_refl, IH. reflexivity.
Qed.

(** Every occurrence trades [length old] characters for [length new]. *)
Lemma length_replace_from old new : old ≠ [] → ∀ s skip,
  (length (replace_from old new skip s) + count_from old skip s * length old
   = (length s - skip) + count_from old skip s * length new)%nat.
Proof.
  intros Hold.
  assert (1 ≤ length old)%nat by (destruct old; simpl; [congruence | lia]).
  induction s as [|c s IH]; intros skip; simpl; [reflexivity|].
  destruct skip as [|k]; [|apply IH].
  destruct (startswith (c :: s) old) eqn:Hstart.
  - apply startswith_length in Hstart. simpl in Hstart.
    rewrite length_app. specialize (IH (Nat.pred (length old))). lia.
  - simpl. specialize (IH O). lia.
Qed.

Lemma length_replace s old new : old ≠ [] →
  (length (replace s old new) + count s old * length old
   = length s + count s old * length new)%nat.
Proof.
  intros Hold. unfold replace, count. rewrite length_replace_from by assumption. lia.
Qed.

(** A string that ends with [old] holds at least one occurrence of it. *)
Lemma count_suffix old : old ≠ [] → ∀ base, (1 ≤ count (base ++ old) old)%nat.
Proof.
  intros Hold. unfold count. induction base as [|c base IH]; simpl.
  - destruct old as [|a old]; [congruence|]. simpl.
    rewrite N.eqb_refl. simpl.
    replace (startswith old old) with true; [lia|].
    rewrite <- (app_nil_r old) at 1. symmetry. apply startswith_app.
  - destruct (startswith (c :: base ++ old) old); [lia | exact IH].
Qed.

(** Replacements of different lengths give different names. *)
Lemma replace_suffix_ne base old new new' :
  old ≠ [] → length new ≠ length new' →
  replace (base ++ old) old new ≠ replace (base ++ old) old new'.
Proof.
  intros Hold Hlen Heq. apply (f_equal length) in Heq.
  pose proof (length_replace (base ++ old) old new Hold).
  pose proof (length_replace (base ++ old) old new' Hold).
  pose proof (count_suffix old Hold base). nia.
Qed.

Lemma replace_suffix_changes base old new :
  old ≠ [] → length new ≠ length old →
  replace (base ++ old) old new ≠ base ++ old.
Proof.
  intros Hold Hlen Heq. apply (f_equal length) in Heq.
  pose proof (length_replace (base ++ old) old new Hold).
  pose proof (count_suffix old Hold base). nia.
Qed.

(** ** Feed reader *)

Lemma entry_pub_cases e :
  entry_pub e =
    match published_parsed e, updated_parsed e with
    | Some val, _ | None, Some val =>
        match datetime_utc val with
        | Some pub => Value (Some pub)
        | None => Error ValueError
        end
    | None, None => Value None
    end.
Proof.
  unfold entry_pub; simpl.
  destruct (published_parsed e), (updated_parsed e); reflexivity.
Qed.

(** The loop's view of an entry, against the specification's. *)
Lemma entry_pub_eligible cutoff e :
  match entry_pub e with
  | Error _ => eligible_article cutoff e = None
  | Value None => eligible_article cutoff e = None
  | Value (Some pub) =>
      eligible_article cutoff e =
        if pub <? cutoff then None else Some (make_article e pub)
  end.
Proof.
  rewrite entry_pub_cases. unfold eligible_article.
  destruct (published_parsed e) as [val|], (updated_parsed e) as [val'|];
    try reflexivity.
  all: match goal with |- context [datetime_utc ?v] =>
         destruct (datetime_utc v) as [pub|]; [|reflexivity]
       end.
  all: rewrite (Z.ltb_antisym cutoff pub); destruct (cutoff <=? pub); reflexivity.
Qed.

Local Opaque MAX_ARTICLES_PER_BLOG.

(** When the loop returns, it returns the first eligible entries, as many
    as still fit under the cap. *)
Lemma scan_entries_take cutoff entries : ∀ articles result,
  (length articles < MAX_ARTICLES_PER_BLOG)%nat →
  scan_entries cutoff entries articles = Value result →
  result = articles ++ take (MAX_ARTICLES_PER_BLOG - length articles)
                            (omap (eligible_article cutoff) entries).
Proof.
  induction entries as [|e rest IH]; intros articles result Hlen; simpl.
  - intros [= <-]. rewrite take_nil, app_nil_r. reflexivity.
  - pose proof (entry_pub_eligible cutoff e) as Helig.
    destruct (entry_pub e) as [[pub|]|err]; [| |discriminate].
    + rewrite Helig. destruct (pub <? cutoff); [apply IH; assumption|].
      rewrite length_app; simpl length.
      destruct (Nat.leb_spec MAX_ARTICLES_PER_BLOG (length articles + 1)) as [Hfull|Hroom].
      * intros [= <-].
        replace (MAX_ARTICLES_PER_BLOG - length articles)%nat with 1%nat by lia.
        simpl. rewrite take_0. reflexivity.
      * intros Hscan. apply IH in Hscan; [|rewrite length_app; simpl; lia].
        rewrite Hscan, length_app. simpl length.
        replace (MAX_ARTICLES_PER_BLOG - length articles)%nat
          with (S (MAX_ARTICLES_PER_BLOG - (length articles + 1)))%nat by lia.
        simpl. rewrite <- app_assoc. reflexivity.
    + rewrite Helig. apply IH. assumption.
Qed.

(** The loop returns when every timestamp it reads denotes a date. *)
Lemma scan_entries_returns cutoff entries : ∀ articles,
  (∀ e, e ∈ entries → entry_pub e ≠ Error ValueError) →
  ∃ result, scan_entries cutoff entries articles = Value result.
Proof.
  induction entries as [|e rest IH]; intros articles Hdated; simpl; [eauto|].
  assert (Hrest : ∀ e', e' ∈ rest → entry_pub e' ≠ Error ValueError)
    by (intros e' He'; apply Hdated; set_solver).
  pose proof (Hdated e ltac:(set_solver)) as He.
  rewrite entry_pub_cases in He. rewrite entry_pub_cases.
  destruct (published_parsed e) as [val|], (updated_parsed e) as [val'|];
    try (apply IH; assumption).
  all: match goal with |- context [datetime_utc ?v] =>
         destruct (datetime_utc v) as [pub|]; [|congruence]
       end.
  all: destruct (pub <? cutoff); [apply IH; assumption|].
  all: case_cond; [eauto | apply IH; assumption].
Qed.

(** Entries past the cap are not read. *)
Lemma scan_entries_stops cutoff seen unseen : ∀ articles,
  (length articles < MAX_ARTICLES_PER_BLOG)%nat →
  (MAX_ARTICLES_PER_BLOG - length articles
   ≤ length (omap (eligible_article cutoff) seen))%nat →
  scan_entries cutoff (seen ++ unseen) articles = scan_entries cutoff seen articles.
Proof.
  induction seen as [|e rest IH]; intros articles Hlen Hcap.
  - simpl in Hcap. lia.
  - revert Hcap. csimpl. pose proof (entry_pub_eligible cutoff e) as Helig.
    destruct (entry_pub e) as [[pub|]|err]; [| |reflexivity].
    + rewrite Helig. destruct (pub <? cutoff); [apply IH; assumption|].
      simpl length. rewrite length_app; simpl length. intros Hcap.
      destruct (Nat.leb_spec MAX_ARTICLES_PER_BLOG (length articles + 1));
        [reflexivity|].
      apply IH; rewrite length_app; simpl length; lia.
    + rewrite Helig. apply IH. assumption.
Qed.

Local Transparent MAX_ARTICLES_PER_BLOG.

(** Entries without a timestamp leave no mark on the loop. *)
Lemma scan_entries_timestamped cutoff entries : ∀ articles,
  scan_entries cutoff (filter (λ e, has_timestamp e) entries) articles
  = scan_entries cutoff entries articles.
Proof.
  induction entries as [|e rest IH]; intros articles; [reflexivity|].
  destruct (has_timestamp e) eqn:Hts.
  - rewrite filter_cons_True by (rewrite Hts; exact I).
    simpl. destruct (entry_pub e) as [[pub|]|]; [|apply IH|reflexivity].
    destruct (pub <? cutoff); [apply IH|]. case_cond; [reflexivity|apply IH].
  - rewrite filter_cons_False by (rewrite Hts; exact id).
    simpl. rewrite entry_pub_cases, IH.
    unfold has_timestamp in Hts.
    destruct (published_parsed e), (updated_parsed e); try discriminate.
    reflexivity.
Qed.

(** What one call of [get_recent_articles] does. *)
Lemma get_recent_articles_run E feed_url w :
  get_recent_articles E feed_url w =
    match feedparser_parse E (length (trace w)) feed_url with
    | Some entries =>
        lift (scan_entries (cutoff_at E w) entries [])
             (record_events [FeedParse feed_url true] w)
    | None =>
        Ok [] (record_events [FeedParse feed_url false; Stdout (LogRssError feed_url)] w)
    end.
Proof.
  unfold get_recent_articles, call_feedparser, cutoff_at. run_m.
  destruct (feedparser_parse E (length (trace w)) feed_url) as [entries|]; simpl.
  - rewrite length_app; simpl. rewrite Nat.add_1_r. reflexivity.
  - unfold record_events; simpl. rewrite <- app_assoc. reflexivity.
Qed.

(** What a call that returns has returned. *)
Lemma get_recent_articles_returned E feed_url w articles w' :
  get_recent_articles E feed_url w = Ok articles w' →
  match feedparser_parse E (length (trace w)) feed_url with
  | Some entries =>
      scan_entries (cutoff_at E w) entries [] = Value articles ∧
      w' = record_events [FeedParse feed_url true] w
  | None =>
      articles = [] ∧
      w' = record_events [FeedParse feed_url false; Stdout (LogRssError feed_url)] w
  end.
Proof.
  rewrite get_recent_articles_run.
  destruct (feedparser_parse E (length (trace w)) feed_url) as [entries|].
  - unfold lift. destruct (scan_entries _ _ _); intros [= <- <-]. done.
  - intros [= <- <-]. done.
Qed.

Lemma cap_positive : (length (@nil article) < MAX_ARTICLES_PER_BLOG)%nat.
Proof. unfold MAX_ARTICLES_PER_BLOG. simpl. lia. Qed.

Lemma scan_entries_from_empty cutoff entries result :
  scan_entries cutoff entries [] = Value result →
  result = take MAX_ARTICLES_PER_BLOG (omap (eligible_article cutoff) entries).
Proof.
  intros Hscan.
  rewrite (scan_entries_take cutoff entries [] result cap_positive Hscan).
  rewrite app_nil_l. change (length (@nil article)) with 0%nat.
  rewrite Nat.sub_0_r. reflexivity.
Qed.

(** The specification's eligibility, spelled out. *)
Lemma eligible_article_inv cutoff e a :
  eligible_article cutoff e = Some a →
  ∃ val pub',
    (published_parsed e = Some val ∨
     published_parsed e = None ∧ updated_parsed e = Some val) ∧
    datetime_utc val = Some pub' ∧ a = make_article e pub' ∧ cutoff ≤ pub'.
Proof.
  unfold eligible_article.
  destruct (published_parsed e) as [val|] eqn:Hp;
    [|destruct (updated_parsed e) as [val|] eqn:Hu; [|discriminate]].
  all: destruct (datetime_utc val) as [pub'|] eqn:Hval; [|discriminate].
  all: destruct (Z.leb_spec cutoff pub'); [|discriminate].
  all: intros [= <-]; exists val, pub'; auto 10.
Qed.

(** C1 does not hold as stated: the recency test has no upper bound, so
    an entry stamped a year after the clock reading is returned although
    its timestamp is not within the [LOOKBACK_HOURS] before it. *)
Lemma future_entry_returned :
  ¬ (∀ E feed_url w articles w' a,
       get_recent_articles E feed_url w = Ok articles w' →
       a ∈ articles →
       now_utc E (S (length (trace w))) - timedelta_hours LOOKBACK_HOURS ≤ pub a
       ∧ pub a ≤ now_utc E (S (length (trace w)))).
Proof.
  intros Hclaim.
  pose (feed := [sample_entry "postdated" (Some (stamp 2027 11 4 12 0 0)) None]).
  pose (E := sample_env [] sample_now (Some feed) None true ConnectionFailed true true).
  destruct (Hclaim E (u "https://blockthreat.io/feed/") empty_world
              [make_article (sample_entry "postdated" (Some (stamp 2027 11 4 12 0 0)) None)
                 (timestamp (stamp 2027 11 4 12 0 0))]
              (record_events [FeedParse (u "https://blockthreat.io/feed/") true] empty_world)
              (make_article (sample_entry "postdated" (Some (stamp 2027 11 4 12 0 0)) None)
                 (timestamp (stamp 2027 11 4 12 0 0))))
    as [_ Hupper].
  - vm_compute. reflexivity.
  - constructor.
  - vm_compute in Hupper. apply Hupper. reflexivity.
Qed.

(** C1, amended: an article is returned only for an entry that carries a
    publication or, when that is absent, a last-updated timestamp which
    denotes a date not older than [LOOKBACK_HOURS] before the clock
    reading (it may be later than the clock reading); and entries lacking
    both timestamp fields are excluded: the result is the one the feed
    gives once they are dropped from it. *)
Theorem get_recent_articles_recent_only E feed_url w articles w' :
  get_recent_articles E feed_url w = Ok articles w' →
  (∀ a, a ∈ articles →
     ∃ entries e val pub',
       feedparser_parse E (length (trace w)) feed_url = Some entries ∧
       e ∈ entries ∧
       (published_parsed e = Some val ∨
        published_parsed e = None ∧ updated_parsed e = Some val) ∧
       datetime_utc val = Some pub' ∧
       a = make_article e pub' ∧
       now_utc E (S (length (trace w))) - timedelta_hours LOOKBACK_HOURS ≤ pub')
  ∧ (∀ entries,
       feedparser_parse E (length (trace w)) feed_url = Some entries →
       scan_entries (cutoff_at E w) (filter (λ e, has_timestamp e) entries) []
       = Value articles).
Proof.
  intros Hrun. apply get_recent_articles_returned in Hrun.
  destruct (feedparser_parse E (length (trace w)) feed_url) as [entries|].
  - destruct Hrun as [Hscan _]. split.
    + intros a Ha. rewrite (scan_entries_from_empty _ _ _ Hscan) in Ha.
      apply subseteq_take in Ha.
      apply list_elem_of_omap in Ha as (e & He & Helig).
      apply eligible_article_inv in Helig as (val & pub' & Hval & Hdate & -> & Hle).
      exists entries, e, val, pub'. auto 10.
    + intros entries' [= <-]. rewrite scan_entries_timestamped. exact Hscan.
  - destruct Hrun as [-> _].
    split; [intros a Ha; inversion Ha | intros entries Heq; discriminate].
Qed.

Lemma get_recent_articles_recent_only_witness :
  let E := sample_env [] sample_now
             (Some [sample_entry "old" (Some (stamp 2026 11 3 11 59 59))
                                       (Some (stamp 2026 11 4 11 0 0));
                    sample_entry "undated" None None;
                    sample_entry "updated" None (Some (stamp 2026 11 3 18 30 0))])
             None true ConnectionFailed true true in
  ∃ articles w',
    get_recent_articles E (u "https://blockthreat.io/feed/") empty_world = Ok articles w' ∧
    title <$> articles = [u "updated"] ∧
    ∀ a, a ∈ articles → ∃ entries e val pub',
       feedparser_parse E 0 (u "https://blockthreat.io/feed/") = Some entries ∧
       e ∈ entries ∧
       (published_parsed e = Some val ∨
        published_parsed e = None ∧ updated_parsed e = Some val) ∧
       datetime_utc val = Some pub' ∧
       a = make_article e pub' ∧
       now_utc E 1 - timedelta_hours LOOKBACK_HOURS ≤ pub'.
Proof.
  intros E. eexists _, _. split; [vm_compute; reflexivity|].
  split; [reflexivity|].
  refine (proj1 (get_recent_articles_recent_only E
                   (u "https://blockthreat.io/feed/") empty_world _ _ _)).
  vm_compute. reflexivity.
Defined.

(** C7: whatever the feed holds, a call that returns gives at most
    [MAX_ARTICLES_PER_BLOG] articles, and they are the first eligible
    entries of the feed, in feed order (a feed that fails to parse gives
    none). *)
Theorem get_recent_articles_capped E feed_url w articles w' :
  get_recent_articles E feed_url w = Ok articles w' →
  (length articles ≤ MAX_ARTICLES_PER_BLOG)%nat ∧
  articles =
    take MAX_ARTICLES_PER_BLOG
      (omap (eligible_article (cutoff_at E w))
         (default [] (feedparser_parse E (length (trace w)) feed_url))).
Proof.
  intros Hrun. apply get_recent_articles_returned in Hrun.
  destruct (feedparser_parse E (length (trace w)) feed_url) as [entries|]; simpl.
  - destruct Hrun as [Hscan _].
    rewrite (scan_entries_from_empty _ _ _ Hscan), length_take.
    split; [lia | reflexivity].
  - destruct Hrun as [-> _]. split; [simpl; lia | reflexivity].
Qed.

Lemma get_recent_articles_capped_witness :
  let hour_ago := Some (stamp 2026 11 4 11 0 0) in
  let E := sample_env [] sample_now
             (Some [sample_entry "one" hour_ago None;
                    sample_entry "two" hour_ago None;
                    sample_entry "three" hour_ago None;
                    sample_entry "four" hour_ago None;
                    sample_entry "five" hour_ago None])
             None true ConnectionFailed true true in
  ∃ articles w',
    get_recent_articles E (u "https://blockthreat.io/feed/") empty_world = Ok articles w' ∧
    title <$> articles = [u "one"; u "two"] ∧
    (length articles ≤ MAX_ARTICLES_PER_BLOG)%nat.
Proof.
  intros hour_ago E. eexists _, _. split; [vm_compute; reflexivity|].
  split; [reflexivity|].
  refine (proj1 (get_recent_articles_capped E
                   (u "https://blockthreat.io/feed/") empty_world _ _ _)).
  vm_compute. reflexivity.
Defined.

(** The recency test at the boundary: a timestamp equal to the cutoff is
    not older than it. *)
Lemma eligible_at_cutoff cutoff e :
  entry_pub e = Value (Some cutoff) →
  eligible_article cutoff e = Some (make_article e cutoff).
Proof.
  intros Hpub. pose proof (entry_pub_eligible cutoff e) as Helig.
  rewrite Hpub, Z.ltb_irrefl in Helig. exact Helig.
Qed.

(** What the loop returns holds what it had built before. *)
Lemma scan_entries_prefix cutoff entries : ∀ articles result,
  scan_entries cutoff entries articles = Value result →
  articles `prefix_of` result.
Proof.
  induction entries as [|e rest IH]; intros articles result; simpl.
  - intros [= <-]. done.
  - destruct (entry_pub e) as [[p|]|]; [|apply IH|discriminate].
    destruct (p <? cutoff); [apply IH|].
    case_cond; [intros [= <-]; apply prefix_app_r; done|].
    intros Hscan. etrans; [|apply (IH _ _ Hscan)]. apply prefix_app_r. done.
Qed.

(** C10: an entry stamped exactly at the cutoff passes the recency test:
    the loop, on reaching it, appends its article and does not skip it, so
    that whatever the loop then returns holds it; and the feed reader,
    when it returns, has included it whenever the cap was not reached
    before it. *)
Theorem boundary_entry_included E w e :
  entry_pub e = Value (Some (cutoff_at E w)) →
  let a := make_article e (cutoff_at E w) in
  eligible_article (cutoff_at E w) e = Some a
  ∧ (∀ rest articles,
       scan_entries (cutoff_at E w) (e :: rest) articles =
         if (MAX_ARTICLES_PER_BLOG <=? length (articles ++ [a]))%nat
         then Value (articles ++ [a])
         else scan_entries (cutoff_at E w) rest (articles ++ [a]))
  ∧ (∀ rest articles result,
       scan_entries (cutoff_at E w) (e :: rest) articles = Value result →
       a ∈ result)
  ∧ (∀ feed_url before after articles w',
       feedparser_parse E (length (trace w)) feed_url = Some (before ++ e :: after) →
       (length (omap (eligible_article (cutoff_at E w)) before)
        < MAX_ARTICLES_PER_BLOG)%nat →
       get_recent_articles E feed_url w = Ok articles w' →
       a ∈ articles).
Proof.
  intros Hpub a.
  assert (Hstep : ∀ rest articles,
            scan_entries (cutoff_at E w) (e :: rest) articles =
              if (MAX_ARTICLES_PER_BLOG <=? length (articles ++ [a]))%nat
              then Value (articles ++ [a])
              else scan_entries (cutoff_at E w) rest (articles ++ [a])).
  { intros rest articles. simpl. rewrite Hpub, Z.ltb_irrefl. reflexivity. }
  split; [apply eligible_at_cutoff; assumption|]. split; [exact Hstep|]. split.
  - intros rest articles result. rewrite Hstep.
    case_cond; [intros [= <-]; set_solver|].
    intros Hscan. destruct (scan_entries_prefix _ _ _ _ Hscan) as [more ->].
    set_solver.
  - intros feed_url before after articles w' Hfeed Hroom Hrun.
    apply get_recent_articles_returned in Hrun. rewrite Hfeed in Hrun.
    destruct Hrun as [Hscan _].
    rewrite (scan_entries_from_empty _ _ _ Hscan), omap_app. csimpl.
    rewrite eligible_at_cutoff by assumption.
    apply elem_of_take.
    exists (length (omap (eligible_article (cutoff_at E w)) before)).
    split; [|assumption].
    apply list_lookup_middle. reflexivity.
Qed.

Lemma boundary_entry_included_witness :
  let boundary := sample_entry "boundary" None (Some sample_cutoff) in
  let feed := [sample_entry "undated" None None;
               sample_entry "recent" (Some (stamp 2026 11 4 11 0 0)) None;
               boundary] in
  let E := sample_env [] sample_now (Some feed) None true ConnectionFailed true true in
  cutoff_at E empty_world = timestamp sample_cutoff ∧
  ∃ articles w',
    get_recent_articles E (u "https://blockthreat.io/feed/") empty_world = Ok articles w' ∧
    title <$> articles = [u "recent"; u "boundary"] ∧
    make_article boundary (cutoff_at E empty_world) ∈ articles.
Proof.
  intros boundary feed E. split; [reflexivity|].
  eexists _, _. split; [vm_compute; reflexivity|]. split; [reflexivity|].
  refine (proj2 (proj2 (proj2 (boundary_entry_included E empty_world boundary _)))
            (u "https://blockthreat.io/feed/")
            [sample_entry "undated" None None;
             sample_entry "recent" (Some (stamp 2026 11 4 11 0 0)) None]
            [] _ _ _ _ _).
  - reflexivity.
  - reflexivity.
  - vm_compute. lia.
  - vm_compute. reflexivity.
Defined.

(** ** Summarizer *)

(** What one call of [summarize_to_russian] does. *)
Lemma summarize_to_russian_run E title content w :
  let prompt := summary_prompt title content in
  summarize_to_russian E title content w =
    match groq_create E (length (trace w)) prompt with
    | Some (Some message_content :: _) =>
        Ok (strip message_content) (record_events [GroqCreate prompt true] w)
    | Some _ =>
        Ok (u "Новая статья: " ++ title)
           (record_events [GroqCreate prompt true; Stdout LogGroqError] w)
    | None =>
        Ok (u "Новая статья: " ++ title)
           (record_events [GroqCreate prompt false; Stdout LogGroqError] w)
    end.
Proof.
  intros prompt. unfold summarize_to_russian, groq_chat. fold prompt. run_m.
  destruct (groq_create E (length (trace w)) prompt) as [[|[c|] rest]|];
    unfold record_events; simpl; rewrite <- ?app_assoc; reflexivity.
Qed.

(** C5 does not hold with the synopsis it quotes: when the remote call
    raises for the title "X", the synopsis is not "New article: X". *)
Lemma fallback_synopsis_not_english :
  ¬ (∀ E title content w,
       summarization_failed
         (groq_create E (length (trace w)) (summary_prompt title content)) = true →
       ∃ w', summarize_to_russian E title content w
             = Ok (u "New article: " ++ title) w').
Proof.
  intros Hclaim.
  destruct (Hclaim (sample_env [] sample_now None None true ConnectionFailed true true)
                   (u "X") (u "Details.") empty_world eq_refl) as [w' Hrun].
  vm_compute in Hrun. discriminate Hrun.
Qed.

(** C5, amended: when the remote summarization call fails in any way,
    [summarize_to_russian] does not raise; it returns the synopsis
    "Новая статья: {title}", which depends on the title alone. *)
Theorem summarize_falls_back_to_title E title content w :
  summarization_failed
    (groq_create E (length (trace w)) (summary_prompt title content)) = true →
  ∃ w', summarize_to_russian E title content w
        = Ok (u "Новая статья: " ++ title) w'.
Proof.
  intros Hfail. rewrite summarize_to_russian_run.
  destruct (groq_create E (length (trace w)) (summary_prompt title content))
    as [[|[c|] rest]|]; try discriminate; eexists; reflexivity.
Qed.

Lemma summarize_falls_back_to_title_witness :
  ∃ w', summarize_to_russian
          (sample_env [] sample_now None (Some [None]) true ConnectionFailed true true)
          (u "Zero-day") (u "Details.") empty_world
        = Ok (u "Новая статья: Zero-day") w'.
Proof.
  apply (summarize_falls_back_to_title
           (sample_env [] sample_now None (Some [None]) true ConnectionFailed true true)
           (u "Zero-day") (u "Details.") empty_world).
  reflexivity.
Defined.

(** Summarization never raises. *)
Lemma summarize_to_russian_total E title content w :
  ∃ summary w', summarize_to_russian E title content w = Ok summary w'.
Proof.
  rewrite summarize_to_russian_run.
  destruct (groq_create _ _ _) as [[|[c|] rest]|]; eexists _, _; reflexivity.
Qed.

(** ** Files, synthesis and delivery *)

Lemma record_events_app evs evs' w :
  record_events evs' (record_events evs w) = record_events (evs ++ evs') w.
Proof. unfold record_events; simpl. rewrite <- app_assoc. reflexivity. Qed.

Lemma length_trace_record evs w :
  length (trace (record_events evs w)) = (length (trace w) + length evs)%nat.
Proof. unfold record_events; simpl. apply length_app. Qed.

Lemma unlink_existing_run paths : ∀ w,
  unlink_existing paths w = Ok tt (drop_files paths w).
Proof.
  induction paths as [|f rest IH]; intros w; simpl.
  - unfold ret, drop_files. destruct w; reflexivity.
  - run_m. destruct (bool_decide (is_Some (fs w !! f))) eqn:Hexists;
      rewrite IH; unfold drop_files; simpl; [reflexivity|].
    apply bool_decide_eq_false in Hexists.
    rewrite delete_id; [reflexivity|].
    apply eq_None_not_Some. assumption.
Qed.

Lemma lookup_drop_files paths : ∀ w p,
  fs (drop_files paths w) !! p = if decide (p ∈ paths) then None else fs w !! p.
Proof.
  unfold drop_files. induction paths as [|f rest IH]; intros w p; cbn [fs foldl].
  - rewrite decide_False; [reflexivity|]. apply not_elem_of_nil.
  - specialize (IH {| fs := delete f (fs w); cache := cache w; trace := trace w |} p).
    cbn [fs] in IH. rewrite IH.
    destruct (decide (p ∈ rest)) as [Hin|Hnin].
    + rewrite decide_True; [reflexivity|]. apply elem_of_cons. auto.
    + destruct (decide (p = f)) as [->|Hne].
      * rewrite decide_True by (apply elem_of_cons; auto). apply lookup_delete_eq.
      * rewrite decide_False by (rewrite elem_of_cons; tauto).
        apply lookup_delete_ne. congruence.
Qed.

(** A failed tool touches nothing but its output path. *)
Lemma trace_littered E t dst w : trace (littered E t dst w) = trace w.
Proof. unfold littered. destruct (leftover E t dst); reflexivity. Qed.

Lemma cache_littered E t dst w : cache (littered E t dst w) = cache w.
Proof. unfold littered. destruct (leftover E t dst); reflexivity. Qed.

Lemma lookup_littered_ne E t dst w p :
  p ≠ dst → fs (littered E t dst w) !! p = fs w !! p.
Proof.
  intros Hne. unfold littered. destruct (leftover E t dst); [|reflexivity].
  cbn [fs put_file]. apply lookup_insert_ne. congruence.
Qed.

(** A file that was there is still there, whatever it now holds. *)
Lemma lookup_littered_is_Some E t dst w p :
  is_Some (fs w !! p) → is_Some (fs (littered E t dst w) !! p).
Proof.
  intros Hsome. unfold littered. destruct (leftover E t dst); [|assumption].
  cbn [fs put_file]. destruct (decide (p = dst)) as [->|Hne].
  - rewrite lookup_insert_eq. eauto.
  - rewrite lookup_insert_ne by congruence. assumption.
Qed.

Lemma tts_to_mp3_run E text out_path w :
  tts_to_mp3 E text out_path w =
    if gtts_save E (length (trace w)) text
    then Ok tt (put_file out_path (Speech text)
                  (record_events [GttsSave text out_path true] w))
    else Raise GttsError
           (littered E (length (trace w)) out_path
              (record_events [GttsSave text out_path false] w)).
Proof. unfold tts_to_mp3. run_m. case_cond; reflexivity. Qed.

Lemma ffmpeg_call E src dst w :
  ffmpeg E src dst w =
    match fs w !! src with
    | Some a =>
        if ffmpeg_run E (length (trace w)) src dst
        then Ok tt (put_file dst (Transcoded a) (record_events [Ffmpeg src dst true] w))
        else Raise CalledProcessError
               (littered E (length (trace w)) dst
                  (record_events [Ffmpeg src dst false] w))
    | None => Raise CalledProcessError
                (littered E (length (trace w)) dst
                   (record_events [Ffmpeg src dst false] w))
    end.
Proof.
  unfold ffmpeg. run_m. destruct (fs w !! src); [case_cond|]; reflexivity.
Qed.

Lemma infer_file_call E pth index_path wav_in wav_out w :
  infer_file E pth index_path wav_in wav_out w =
    match fs w !! wav_in with
    | Some a =>
        if rvc_infer_file E (length (trace w)) pth index_path a
        then Ok tt (put_file wav_out (Voiced pth index_path a)
                      (record_events [RvcInferFile wav_in wav_out true] w))
        else Raise RvcError
               (littered E (length (trace w)) wav_out
                  (record_events [RvcInferFile wav_in wav_out false] w))
    | None => Raise RvcError
                (littered E (length (trace w)) wav_out
                   (record_events [RvcInferFile wav_in wav_out false] w))
    end.
Proof.
  unfold infer_file. run_m. destruct (fs w !! wav_in); [case_cond|]; reflexivity.
Qed.

Lemma post_run E req w :
  post E req w =
    match tg_post E (length (trace w)) req with
    | Some resp => Ok resp (record_events [TgPost req (ok resp)] w)
    | None => Raise RequestException (record_events [TgPostError req] w)
    end.
Proof.
  unfold post. run_m. destruct (tg_post E (length (trace w)) req); reflexivity.
Qed.

Lemma tg_send_text_run E text w :
  tg_send_text E text w =
    match tg_post E (length (trace w)) (SendMessage text) with
    | Some resp => Ok tt (record_events [TgPost (SendMessage text) (ok resp)] w)
    | None => Raise RequestException (record_events [TgPostError (SendMessage text)] w)
    end.
Proof.
  unfold tg_send_text. run_m. fold (post E (SendMessage text) w).
  rewrite post_run.
  destruct (tg_post E (length (trace w)) (SendMessage text)); reflexivity.
Qed.

Lemma tg_send_audio_run E title link audio_path w :
  tg_send_audio E title link audio_path w =
    match fs w !! audio_path with
    | Some data =>
        (if delivery_returns E (length (trace w)) title link data
         then Ok tt else Raise RequestException)
          (record_events
             (delivery_events E (length (trace w)) title link data) w)
    | None => Raise FileNotFoundError w
    end.
Proof.
  unfold tg_send_audio, delivery_events, delivery_returns. run_m.
  destruct (fs w !! audio_path) as [data|]; [|reflexivity].
  fold (post E (SendAudio (audio_caption title link) data) w).
  rewrite post_run.
  destruct (tg_post E (length (trace w)) _) as [resp|]; [|reflexivity].
  destruct (ok resp) eqn:Hok; [reflexivity|].
  cbn [orb]. rewrite tg_send_text_run. unfold post_event.
  cbn [trace record_events]. rewrite !length_app. cbn [length].
  replace (length (trace w) + 1 + 1)%nat with (S (S (length (trace w)))) by lia.
  destruct (tg_post E (S (S (length (trace w)))) _) as [answer|];
    [rewrite bool_decide_eq_true_2 by eauto
    |rewrite bool_decide_eq_false_2 by (intros [? ?]; discriminate)];
    unfold record_events; cbn [fs cache trace];
    rewrite <- !app_assoc; reflexivity.
Qed.

(** ** Voice converter *)

Lemma mp3_suffix_nonempty : u ".mp3" ≠ [].
Proof. discriminate. Qed.

(** What [apply_rvc] leaves behind for an input named [base ++ ".mp3"]
    and an output that is neither of the two intermediate files: only the
    two intermediate files and the output can have been written, and when
    it returns the output is complete and the intermediate files are
    gone. *)
Lemma apply_rvc_spec E base mp3_out pth idx w :
  let mp3_in := base ++ u ".mp3" in
  let wav_in := replace mp3_in (u ".mp3") (u "_in.wav") in
  let wav_out := replace mp3_in (u ".mp3") (u "_rvc.wav") in
  let r := apply_rvc E mp3_in mp3_out pth idx w in
  mp3_out ≠ wav_in → mp3_out ≠ wav_out →
  ∃ d, trace (world_of r) = trace w ++ d ∧ Forall conversion_event d ∧
    cache (world_of r) = cache w ∧
    (∀ p, p ≠ wav_in → p ≠ wav_out → p ≠ mp3_out →
          fs (world_of r) !! p = fs w !! p) ∧
    match r with
    | Raise _ _ => True
    | Ok _ w' =>
        fs w' !! wav_in = None ∧ fs w' !! wav_out = None ∧
        ∃ data, fs w !! mp3_in = Some data ∧
          fs w' !! mp3_out =
            Some (Transcoded (Voiced pth (if truthy idx then Some idx else None)
                                (Transcoded data))) ∧
          d = [Ffmpeg mp3_in wav_in true; RvcLoadModel pth true;
               RvcInferFile wav_in wav_out true; Ffmpeg wav_out mp3_out true]
    end.
Proof.
  intros mp3_in wav_in wav_out r Hout_in Hout_out.
  assert (Hwav : wav_in ≠ wav_out)
    by (apply replace_suffix_ne; [apply mp3_suffix_nonempty | discriminate]).
  assert (Hleaf : ∀ t dst d0 (w0 : world),
            (dst = wav_in ∨ dst = wav_out ∨ dst = mp3_out) →
            trace w0 = trace w ++ d0 → Forall conversion_event d0 →
            cache w0 = cache w →
            (∀ p, p ≠ wav_in → p ≠ wav_out → p ≠ mp3_out → fs w0 !! p = fs w !! p) →
            ∃ d, trace (littered E t dst w0) = trace w ++ d ∧
                 Forall conversion_event d ∧
                 cache (littered E t dst w0) = cache w ∧
                 (∀ p, p ≠ wav_in → p ≠ wav_out → p ≠ mp3_out →
                       fs (littered E t dst w0) !! p = fs w !! p) ∧
                 True).
  { intros t dst d0 w0 Hdst Htrace Hconv Hcache Hfs. exists d0.
    rewrite trace_littered, cache_littered.
    split; [assumption|]. split; [assumption|]. split; [assumption|].
    split; [|exact I].
    intros p Hp1 Hp2 Hp3. rewrite lookup_littered_ne; [auto|].
    destruct Hdst as [->|[->| ->]]; assumption. }
  subst r. unfold apply_rvc. fold mp3_in. fold wav_in. fold wav_out.
  run_m. destruct (rvc_import E (length (trace w))).
  2:{ exists []. cbn [world_of]. rewrite app_nil_r. repeat split. constructor. }
  rewrite ffmpeg_call.
  destruct (fs w !! mp3_in) as [data|] eqn:Hin.
  2:{ cbn [world_of]. eapply Hleaf;
        [ auto
        | cbn [trace record_events put_file]; rewrite <- ?app_assoc; reflexivity
        | repeat constructor
        | reflexivity
        | intros p Hp1 Hp2 Hp3; cbn [fs record_events put_file];
          rewrite ?lookup_insert_ne by congruence; reflexivity ]. }
  destruct (ffmpeg_run E _ _ _).
  2:{ cbn [world_of]. eapply Hleaf;
        [ auto
        | cbn [trace record_events put_file]; rewrite <- ?app_assoc; reflexivity
        | repeat constructor
        | reflexivity
        | intros p Hp1 Hp2 Hp3; cbn [fs record_events put_file];
          rewrite ?lookup_insert_ne by congruence; reflexivity ]. }
  cbn [length trace record_events put_file].
  destruct (rvc_load_model E _ _).
  2:{ eexists. cbn [world_of trace cache fs record_events put_file].
      rewrite <- ?app_assoc.
      split; [reflexivity|]. split; [repeat constructor|]. split; [reflexivity|].
      split; [|exact I].
      intros p Hp1 Hp2 Hp3. rewrite lookup_insert_ne by congruence. reflexivity. }
  cbn [length trace record_events put_file fs cache].
  rewrite infer_file_call. cbn [length trace record_events put_file fs cache].
  rewrite lookup_insert_eq.
  destruct (rvc_infer_file E _ _ _ _).
  2:{ cbn [world_of]. eapply Hleaf;
        [ auto
        | cbn [trace record_events put_file]; rewrite <- ?app_assoc; reflexivity
        | repeat constructor
        | reflexivity
        | intros p Hp1 Hp2 Hp3; cbn [fs record_events put_file];
          rewrite ?lookup_insert_ne by congruence; reflexivity ]. }
  rewrite ffmpeg_call. cbn [length trace record_events put_file fs cache].
  rewrite lookup_insert_eq.
  destruct (ffmpeg_run E _ _ _).
  2:{ cbn [world_of]. eapply Hleaf;
        [ auto
        | cbn [trace record_events put_file]; rewrite <- ?app_assoc; reflexivity
        | repeat constructor
        | reflexivity
        | intros p Hp1 Hp2 Hp3; cbn [fs record_events put_file];
          rewrite ?lookup_insert_ne by congruence; reflexivity ]. }
  rewrite unlink_existing_run.
  eexists. cbn [world_of].
  split; [|split; [|split; [|split; [|split; [|split]]]]].
  - cbn [trace cache fs record_events put_file drop_files].
    rewrite <- ?app_assoc. reflexivity.
  - repeat constructor.
  - reflexivity.
  - intros p Hp1 Hp2 Hp3. rewrite lookup_drop_files.
    rewrite decide_False by (rewrite !elem_of_cons, elem_of_nil; tauto).
    cbn [fs put_file record_events].
    rewrite !lookup_insert_ne by congruence. reflexivity.
  - rewrite lookup_drop_files.
    rewrite decide_True by (apply elem_of_cons; auto). reflexivity.
  - rewrite lookup_drop_files.
    rewrite decide_True by (rewrite !elem_of_cons; auto). reflexivity.
  - exists data. split; [reflexivity|]. split; [|reflexivity].
    rewrite lookup_drop_files.
    rewrite decide_False by (rewrite !elem_of_cons, elem_of_nil; tauto).
    apply lookup_insert_eq.
Qed.

(** ** Composing steps *)

Lemma confined_ret {A} P (Q : A → Prop) a : Q a → confined P Q (ret a).
Proof.
  intros HQ w. exists []. simpl. rewrite app_nil_r. auto.
Qed.

Lemma confined_emit P ev : P ev → confined P (λ _, True) (emit ev).
Proof.
  intros HP w. exists [ev]. simpl. auto.
Qed.

Lemma confined_bind {A B} P (Q : A → Prop) (R : B → Prop) m k :
  confined P Q m → (∀ a, Q a → confined P R (k a)) →
  confined P R (bind m k).
Proof.
  intros Hm Hk w. unfold bind.
  destruct (Hm w) as (d & Htrace & HP & Hout).
  destruct (m w) as [a w1|e w1]; simpl in *.
  - destruct (Hk a Hout w1) as (d' & Htrace' & HP' & Hout').
    exists (d ++ d'). rewrite Htrace', Htrace, app_assoc.
    split; [reflexivity|]. split; [apply Forall_app; auto|]. assumption.
  - exists d. auto.
Qed.

Lemma confined_mono {A} (P P' : event → Prop) (Q Q' : A → Prop) m :
  (∀ ev, P ev → P' ev) → (∀ a, Q a → Q' a) →
  confined P Q m → confined P' Q' m.
Proof.
  intros HP HQ Hm w. destruct (Hm w) as (d & Htrace & HPd & Hout).
  exists d. split; [assumption|]. split; [eapply Forall_impl; eauto|].
  destruct (m w); auto.
Qed.

(** A loop whose body keeps [I] keeps it. *)
Lemma confined_for_each {A S} P (I : S → Prop) (body : A → S → M S) :
  (∀ x s, I s → confined P I (body x s)) →
  ∀ xs s, I s → confined P I (for_each body xs s).
Proof.
  intros Hbody. induction xs as [|x xs IH]; intros s Hs; simpl.
  - apply confined_ret. assumption.
  - eapply confined_bind; [apply Hbody; assumption|]. intros s' Hs'. apply IH, Hs'.
Qed.

Lemma confined_try_except {A} (P : event → Prop) (Q : A → Prop) m h :
  confined P Q m → (∀ e, confined P Q (h e)) →
  confined P Q (try_except m h).
Proof.
  intros Hm Hh w. unfold try_except.
  destruct (Hm w) as (d & Htrace & HP & Hout).
  destruct (m w) as [a w1|e w1]; simpl in *.
  - exists d. auto.
  - destruct (Hh e w1) as (d' & Htrace' & HP' & Hout').
    exists (d ++ d'). rewrite Htrace', Htrace, app_assoc.
    split; [reflexivity|]. split; [apply Forall_app; auto|]. assumption.
Qed.

(** ** Voice model cache *)

(** What one call of [download_model_if_needed] does. *)
Lemma download_model_if_needed_run E w :
  let url := HF_MODEL_URL E in
  let asked := record_events [Stdout (LogModelDownloading url)] w in
  download_model_if_needed E w =
    match glob_files E (u ".pth") (cache w) with
    | pth :: _ =>
        Ok (pth, first_or_empty (glob_files E (u ".index") (cache w)))
           (record_events [Stdout (LogModelCached pth)] w)
    | [] =>
        match requests_get E (S (length (trace w))) url with
        | ConnectionFailed =>
            Raise RequestException (record_events [HttpGet url false] asked)
        | HttpStatus false _ =>
            Raise HTTPError (record_events [HttpGet url false] asked)
        | HttpStatus true None =>
            Raise BadZipFile
              (set_cache (add_files [u "model.zip"] (cache w))
                 (record_events [HttpGet url true] asked))
        | HttpStatus true (Some members) =>
            let w' := set_cache (extracted members (cache w))
                        (record_events [HttpGet url true] asked) in
            match rglob_files E (u ".pth") (cache w') with
            | pth :: _ =>
                Ok (pth, first_or_empty (rglob_files E (u ".index") (cache w'))) w'
            | [] => Raise FileNotFoundError w'
            end
        end
    end.
Proof.
  intros url asked. unfold download_model_if_needed, glob, rglob, requests_get_ok,
    cache_add, cache_remove. run_m.
  destruct (glob_files E (u ".pth") (cache w)) as [|pth rest]; [|reflexivity].
  cbn [trace record_events]. rewrite length_app, Nat.add_1_r.
  fold url.
  destruct (requests_get E (S (length (trace w))) url) as [|[|] [members|]];
    try reflexivity.
  cbn [cache set_cache record_events]. fold (extracted members (cache w)).
  destruct (rglob_files E (u ".pth") (extracted members (cache w)));
    reflexivity.
Qed.

(** A weights file directly in the cache directory is returned at once:
    nothing is requested and the directory is left as it is. *)
Lemma download_model_cached E w pth rest :
  glob_files E (u ".pth") (cache w) = pth :: rest →
  download_model_if_needed E w =
    Ok (pth, first_or_empty (glob_files E (u ".index") (cache w)))
       (record_events [Stdout (LogModelCached pth)] w).
Proof.
  intros Hglob. rewrite download_model_if_needed_run, Hglob. reflexivity.
Qed.


(** ** One article *)

Lemma bind_run {A B} (m : M A) (k : A → M B) w :
  bind m k w = match m w with
               | Ok a w' => k a w'
               | Raise e w' => Raise e w'
               end.
Proof. reflexivity. Qed.

Lemma print_run l w : print l w = Ok tt (record_events [Stdout l] w).
Proof. reflexivity. Qed.

Lemma sleep_run secs w : sleep secs w = Ok tt (record_events [Sleep secs] w).
Proof. reflexivity. Qed.

Lemma named_temporary_file_run E suffix w :
  named_temporary_file E suffix w =
    Ok (mkstemp E (length (trace w)) ++ suffix)
       (put_file (mkstemp E (length (trace w)) ++ suffix) Blank w).
Proof. reflexivity. Qed.

Lemma summarize_to_russian_outcome E title content w :
  ∃ summary d,
    summarize_to_russian E title content w = Ok summary (record_events d w) ∧
    Forall preparation_event d.
Proof.
  rewrite summarize_to_russian_run.
  destruct (groq_create _ _ _) as [[|[c|] rest]|];
    eexists _, _; (split; [reflexivity|]); repeat constructor.
Qed.

(** The summary and the speech file of an article: the file is named
    [base ++ ".mp3"] and holds the speech for "{title}. {summary}", unless
    the synthesis fails, which raises and leaves the file on disk with
    whatever was written to it.  No other file is touched. *)
Lemma synthesize_spec E a w :
  ∃ summary base d,
    let tts_path := base ++ u ".mp3" in
    let text := title a ++ u ". " ++ summary in
    Forall preparation_event d ∧
    ∃ w1, cache w1 = cache w ∧
      (∀ p, p ≠ tts_path → fs w1 !! p = fs w !! p) ∧
      ((synthesize E a w = Ok (summary, tts_path) w1 ∧
        trace w1 = trace w ++ d ++ [GttsSave text tts_path true] ∧
        fs w1 !! tts_path = Some (Speech text))
       ∨ (synthesize E a w = Raise GttsError w1 ∧
          trace w1 = trace w ++ d ++ [GttsSave text tts_path false] ∧
          is_Some (fs w1 !! tts_path))).
Proof.
  unfold synthesize.
  rewrite bind_run, print_run.
  destruct (summarize_to_russian_outcome E (title a) (content a)
              (record_events [Stdout (LogArticle (take 70 (title a)))] w))
    as (summary & d & Hsum & Hd).
  rewrite bind_run, Hsum, bind_run, print_run, bind_run, named_temporary_file_run.
  rewrite bind_run, tts_to_mp3_run.
  match goal with |- context [mkstemp E ?t] => exists summary, (mkstemp E t) end.
  exists (Stdout (LogArticle (take 70 (title a))) :: d
            ++ [Stdout (LogSummary (take 80 summary))]).
  split; [repeat constructor; apply Forall_app; split; [assumption|repeat constructor]|].
  unfold ret.
  case_cond; eexists; (split; [|split; [|(left + right); split; [reflexivity|]]]);
    rewrite ?cache_littered, ?trace_littered;
    cbn [record_events trace fs cache put_file].
  - reflexivity.
  - intros p Hp. rewrite !lookup_insert_ne by congruence. reflexivity.
  - split; [trace_eq|]. apply lookup_insert_eq.
  - reflexivity.
  - intros p Hp. rewrite lookup_littered_ne by assumption.
    cbn [record_events trace fs cache put_file].
    rewrite lookup_insert_ne by congruence. reflexivity.
  - split; [trace_eq|]. apply lookup_littered_is_Some.
    cbn [record_events trace fs cache put_file].
    rewrite lookup_insert_eq. eauto.
Qed.

Lemma convert_voice_disabled E rs tts_path w :
  use_rvc rs = false → convert_voice E rs tts_path w = Ok tts_path w.
Proof. intros Hoff. unfold convert_voice. rewrite Hoff. reflexivity. Qed.

Lemma convert_voice_failed E rs tts_path w e w1 :
  use_rvc rs = true →
  apply_rvc E tts_path (replace tts_path (u ".mp3") (u "_kanevsky.mp3"))
    (model_pth rs) (model_index rs) w = Raise e w1 →
  convert_voice E rs tts_path w
  = Ok tts_path (record_events [Stdout LogRvcError] w1).
Proof.
  intros Hon Hrvc. unfold convert_voice, try_except. rewrite Hon, bind_run, Hrvc.
  reflexivity.
Qed.

Lemma convert_voice_succeeded E rs tts_path w w1 :
  use_rvc rs = true →
  apply_rvc E tts_path (replace tts_path (u ".mp3") (u "_kanevsky.mp3"))
    (model_pth rs) (model_index rs) w = Ok tt w1 →
  convert_voice E rs tts_path w
  = Ok (replace tts_path (u ".mp3") (u "_kanevsky.mp3"))
       (record_events [Stdout LogRvcOk] w1).
Proof.
  intros Hon Hrvc. unfold convert_voice, try_except. rewrite Hon, bind_run, Hrvc.
  reflexivity.
Qed.

(** The names derived from a speech file are pairwise distinct and differ
    from it. *)
Lemma derived_names_distinct base :
  let tts_path := base ++ u ".mp3" in
  let rvc_path := replace tts_path (u ".mp3") (u "_kanevsky.mp3") in
  let wav_in := replace tts_path (u ".mp3") (u "_in.wav") in
  let wav_out := replace tts_path (u ".mp3") (u "_rvc.wav") in
  tts_path ≠ wav_in ∧ tts_path ≠ wav_out ∧ tts_path ≠ rvc_path ∧
  rvc_path ≠ wav_in ∧ rvc_path ≠ wav_out ∧ wav_in ≠ wav_out.
Proof.
  intros tts_path rvc_path wav_in wav_out.
  repeat split;
    first [ apply not_eq_sym, replace_suffix_changes
          | apply replace_suffix_ne ];
    first [ apply mp3_suffix_nonempty | discriminate ].
Qed.

(** The audio handed to the delivery for a speech file [base ++ ".mp3"]
    holding [data]: the speech file itself, untouched, when conversion is
    off or fails; the converted file when it succeeds.  Nothing raises. *)
Lemma convert_voice_spec E rs base data w :
  let tts_path := base ++ u ".mp3" in
  let rvc_path := replace tts_path (u ".mp3") (u "_kanevsky.mp3") in
  fs w !! tts_path = Some data →
  ∃ audio_path w1 d,
    convert_voice E rs tts_path w = Ok audio_path w1 ∧
    trace w1 = trace w ++ d ∧ cache w1 = cache w ∧
    Forall (λ ev, conversion_event ev ∨ ev = Stdout LogRvcOk
                  ∨ ev = Stdout LogRvcError) d ∧
    (use_rvc rs = false → d = []) ∧
    ((audio_path = tts_path ∧ fs w1 !! tts_path = Some data)
     ∨ (use_rvc rs = true ∧ audio_path = rvc_path ∧
        fs w1 !! rvc_path
        = Some (Transcoded
                  (Voiced (model_pth rs)
                     (if truthy (model_index rs) then Some (model_index rs) else None)
                     (Transcoded data))))).
Proof.
  intros tts_path rvc_path Hdata.
  destruct (derived_names_distinct base)
    as (Hin & Hout & Hrvc & Hrvc_in & Hrvc_out & _).
  fold tts_path in Hin, Hout, Hrvc, Hrvc_in, Hrvc_out.
  fold rvc_path in Hrvc, Hrvc_in, Hrvc_out.
  destruct (use_rvc rs) eqn:Hon.
  - destruct (apply_rvc_spec E base rvc_path (model_pth rs) (model_index rs) w
                Hrvc_in Hrvc_out) as (d & Htrace & Hd & Hcache & Hframe & Hout').
    fold tts_path in Htrace, Hcache, Hframe, Hout'.
    destruct (apply_rvc E tts_path rvc_path (model_pth rs) (model_index rs) w)
      as [[] w1|e w1] eqn:Hrun; cbn [world_of] in *.
    + rewrite (convert_voice_succeeded E rs tts_path w w1 Hon Hrun).
      eexists _, _, (d ++ [Stdout LogRvcOk]).
      split; [reflexivity|]. cbn [record_events trace cache fs].
      split; [rewrite Htrace; trace_eq|]. split; [assumption|].
      split; [apply Forall_app_2;
                [eapply Forall_impl; [exact Hd|auto]
                |apply Forall_cons_2; [auto | apply Forall_nil_2]]|].
      split; [discriminate|]. right.
      destruct Hout' as (_ & _ & data' & Hdata' & Hconv & _).
      rewrite Hdata in Hdata'. inversion Hdata'; subst data'. auto.
    + rewrite (convert_voice_failed E rs tts_path w e w1 Hon Hrun).
      eexists _, _, (d ++ [Stdout LogRvcError]).
      split; [reflexivity|]. cbn [record_events trace cache fs].
      split; [rewrite Htrace; trace_eq|]. split; [assumption|].
      split; [apply Forall_app_2;
                [eapply Forall_impl; [exact Hd|auto]
                |apply Forall_cons_2; [auto | apply Forall_nil_2]]|].
      split; [discriminate|]. left. split; [reflexivity|].
      rewrite Hframe by assumption. assumption.
  - rewrite convert_voice_disabled by assumption.
    exists tts_path, w, []. rewrite app_nil_r. auto 10.
Qed.

(** [process_article] in three phases: synthesis, conversion, delivery and
    cleanup; a post that gets no response ends it before the cleanup. *)
Lemma process_article_run E a rs w :
  process_article E a rs w =
    match synthesize E a w with
    | Raise e w1 => Raise e w1
    | Ok speech w1 =>
        match convert_voice E rs (snd speech) w1 with
        | Raise e w2 => Raise e w2
        | Ok audio_path w2 =>
            match fs w2 !! audio_path with
            | None => Raise FileNotFoundError w2
            | Some data =>
                let t := length (trace w2) in
                if delivery_returns E t (title a) (link a) data then
                  Ok (count_sent rs)
                     (record_events [Sleep 2]
                        (drop_files [snd speech; audio_path]
                           (record_events
                              (delivery_events E t (title a) (link a) data
                               ++ [Stdout LogSent])
                              w2)))
                else
                  Raise RequestException
                    (record_events
                       (delivery_events E t (title a) (link a) data) w2)
            end
        end
    end.
Proof.
  unfold process_article. rewrite bind_run.
  destruct (synthesize E a w) as [speech w1|e w1]; [|reflexivity].
  rewrite bind_run.
  destruct (convert_voice E rs (snd speech) w1) as [audio_path w2|e w2];
    [|reflexivity].
  rewrite bind_run, tg_send_audio_run.
  destruct (fs w2 !! audio_path) as [data|]; [|reflexivity].
  cbn zeta. case_cond; [|reflexivity].
  rewrite bind_run, print_run, bind_run, unlink_existing_run, bind_run, sleep_run.
  rewrite record_events_app. reflexivity.
Qed.

(** The three outcomes of [process_article]: the synthesis fails and its
    error leaves the function at once; or a post to the channel gets no
    response and that error leaves the function, before the cleanup; or
    the article is delivered, from the speech file or from its
    conversion, the files are cleaned and the count goes up. *)
Lemma process_article_outcome E a rs w :
  ∃ summary base d,
    let tts_path := base ++ u ".mp3" in
    let text := title a ++ u ". " ++ summary in
    Forall preparation_event d ∧
    ((∃ w', process_article E a rs w = Raise GttsError w' ∧
            trace w' = trace w ++ d ++ [GttsSave text tts_path false])
     ∨ (∃ w' d' data t,
          (process_article E a rs w = Ok (count_sent rs) w' ∧
           delivery_returns E t (title a) (link a) data = true ∧
           trace w' = trace w ++ d ++ [GttsSave text tts_path true] ++ d'
                        ++ delivery_events E t (title a) (link a) data
                        ++ [Stdout LogSent; Sleep 2] ∧
           fs w' !! tts_path = None
           ∨ process_article E a rs w = Raise RequestException w' ∧
             delivery_returns E t (title a) (link a) data = false ∧
             trace w' = trace w ++ d ++ [GttsSave text tts_path true] ++ d'
                          ++ delivery_events E t (title a) (link a) data) ∧
          Forall (λ ev, conversion_event ev ∨ ev = Stdout LogRvcOk
                        ∨ ev = Stdout LogRvcError) d' ∧
          (use_rvc rs = false → d' = []) ∧
          (data = Speech text ∨ use_rvc rs = true) ∧
          cache w' = cache w)).
Proof.
  destruct (synthesize_spec E a w)
    as (summary & base & d & Hd & w1 & Hcache & _ & Hsyn).
  exists summary, base, d. cbn zeta in *. split; [assumption|].
  rewrite process_article_run.
  destruct Hsyn as [(Hsyn & Htrace & Hfile)|(Hsyn & Htrace & _)]; rewrite Hsyn.
  2:{ left. eauto. }
  right. cbn [snd].
  destruct (convert_voice_spec E rs base _ w1 Hfile)
    as (audio_path & w2 & d' & Hconv & Htrace' & Hcache' & Hd' & Hoff & Haudio).
  rewrite Hconv.
  assert (∃ data, fs w2 !! audio_path = Some data ∧
            (data = Speech (title a ++ u ". " ++ summary) ∨ use_rvc rs = true))
    as (data & Hdata & Hkind).
  { destruct Haudio as [[-> Hsame]|(Hon & -> & Hconverted)]; eauto. }
  rewrite Hdata. cbn zeta.
  destruct (delivery_returns E (length (trace w2)) (title a) (link a) data) eqn:Hret;
    eexists _, d', data, (length (trace w2));
    (split; [|split; [assumption|]; split; [assumption|]; split; [assumption|]]);
    rewrite ?Hret.
  - left. split; [reflexivity|]. split; [reflexivity|].
    split; [cbn [trace record_events drop_files]; rewrite Htrace', Htrace; trace_eq|].
    unfold record_events at 1. cbn [fs].
    rewrite lookup_drop_files. apply decide_True. apply elem_of_cons. auto.
  - cbn [cache record_events drop_files]. congruence.
  - right. split; [reflexivity|]. split; [reflexivity|].
    cbn [trace record_events]. rewrite Htrace', Htrace. trace_eq.
  - cbn [cache record_events]. congruence.
Qed.

(** ** The loops *)

Lemma preparation_event_ok rvc ev :
  preparation_event ev → pipeline_event rvc ev.
Proof.
  destruct ev as [[]| | | | | | | | | |]; simpl; try tauto; intros _; event_ok.
Qed.

Lemma conversion_step_ok ev :
  conversion_event ev ∨ ev = Stdout LogRvcOk ∨ ev = Stdout LogRvcError →
  pipeline_event true ev.
Proof.
  intros [Hconv|[->| ->]].
  - destruct ev; simpl in Hconv; try tauto; event_ok.
  - event_ok.
  - event_ok.
Qed.

Lemma post_event_ok E rvc t text :
  pipeline_event rvc (post_event E t (SendMessage text)).
Proof.
  unfold post_event. destruct (tg_post E t _); event_ok.
Qed.

Lemma delivery_events_ok E rvc t title link data :
  (rvc = false → ∃ text, data = Speech text) →
  Forall (pipeline_event rvc) (delivery_events E t title link data).
Proof.
  intros Hdata. unfold delivery_events. cbn zeta.
  destruct (tg_post E t _) as [resp|]; [case_cond|];
    repeat apply Forall_cons_2; try apply Forall_nil_2;
    try apply post_event_ok; event_ok.
Qed.

Lemma process_article_confined E a rs :
  confined (pipeline_event (use_rvc rs)) (λ rs', rs' = count_sent rs)
    (process_article E a rs).
Proof.
  intros w.
  destruct (process_article_outcome E a rs w) as (summary & base & d & Hd & Hout).
  cbn zeta in Hout.
  assert (Hprep : Forall (pipeline_event (use_rvc rs)) d)
    by (eapply Forall_impl; [exact Hd|]; apply preparation_event_ok).
  destruct Hout as [(w' & -> & Htrace)
                   |(w' & d' & data & t & Hrun & Hd' & Hoff & Hkind & _)].
  { cbn [world_of]. eexists. split; [exact Htrace|]. split; [|exact I].
    apply Forall_app_2; [assumption|].
    apply Forall_cons_2; [event_ok | apply Forall_nil_2]. }
  assert (Hconv : Forall (pipeline_event (use_rvc rs)) d').
  { destruct (use_rvc rs) eqn:Hon.
    - eapply Forall_impl; [exact Hd'|]. apply conversion_step_ok.
    - rewrite Hoff by reflexivity. apply Forall_nil_2. }
  assert (Hdel : Forall (pipeline_event (use_rvc rs))
                   (delivery_events E t (title a) (link a) data)).
  { apply delivery_events_ok. intros Hon.
    destruct Hkind as [->|Hon']; [eauto | congruence]. }
  destruct Hrun as [(-> & _ & Htrace & _)|(-> & _ & Htrace)];
    cbn [world_of]; eexists; (split; [exact Htrace|]); (split; [|done]).
  - apply Forall_app_2; [assumption|].
    apply Forall_cons_2; [event_ok|].
    apply Forall_app_2; [assumption|]. apply Forall_app_2; [assumption|].
    repeat apply Forall_cons_2; try apply Forall_nil_2; event_ok.
  - apply Forall_app_2; [assumption|].
    apply Forall_cons_2; [event_ok|].
    apply Forall_app_2; assumption.
Qed.

Lemma datetime_now_run E w : datetime_now E w = Ok (now_utc E (length (trace w))) w.
Proof. reflexivity. Qed.

(** The loop over articles leaves the conversion switch as it found it. *)
Lemma process_articles_confined E rvc articles rs :
  use_rvc rs = rvc →
  confined (pipeline_event rvc) (λ rs', use_rvc rs' = rvc)
    (for_each (process_article E) articles rs).
Proof.
  intros Hrvc.
  apply (confined_for_each _ (λ rs', use_rvc rs' = rvc)); [|exact Hrvc].
  intros a rs0 <-.
  eapply confined_mono; [| |apply process_article_confined]; [auto|].
  intros rs' ->. reflexivity.
Qed.

Lemma get_recent_articles_confined E rvc feed_url :
  confined (pipeline_event rvc) (λ _, True) (get_recent_articles E feed_url).
Proof.
  intros w. rewrite get_recent_articles_run.
  destruct (feedparser_parse E _ _).
  - exists [FeedParse feed_url true]. unfold lift.
    destruct (scan_entries _ _ _); cbn [world_of trace record_events];
      (split; [reflexivity|]); (split; [|exact I]);
      repeat apply Forall_cons_2; try apply Forall_nil_2; event_ok.
  - eexists. cbn [world_of trace record_events]. split; [reflexivity|].
    split; [|exact I].
    repeat apply Forall_cons_2; try apply Forall_nil_2; event_ok.
Qed.

Lemma tg_send_text_confined E rvc text :
  confined (pipeline_event rvc) (λ _, True) (tg_send_text E text).
Proof.
  intros w. rewrite tg_send_text_run.
  destruct (tg_post E (length (trace w)) _); eexists;
    (split; [cbn [world_of trace record_events]; reflexivity|]);
    (split; [|exact I]);
    (apply Forall_cons_2; [event_ok | apply Forall_nil_2]).
Qed.

Lemma process_blog_confined E rvc feed rs :
  use_rvc rs = rvc →
  confined (pipeline_event rvc) (λ rs', use_rvc rs' = rvc) (process_blog E feed rs).
Proof.
  intros Hrvc. destruct feed as [blog_name feed_url]. unfold process_blog.
  eapply confined_bind.
  { apply confined_emit. event_ok. }
  intros _ _. eapply (confined_bind _ (λ _, True)).
  { apply get_recent_articles_confined. }
  intros [|a articles] _.
  - eapply confined_bind.
    { apply confined_emit. event_ok. }
    intros _ _. apply confined_ret. assumption.
  - eapply (confined_bind _ (λ _, True)).
    { intros w. rewrite datetime_now_run. exists []. cbn [world_of].
      rewrite app_nil_r. repeat split. apply Forall_nil_2. }
    intros now _. eapply (confined_bind _ (λ _, True)).
    { apply tg_send_text_confined. }
    intros _ _. eapply confined_bind.
    { apply confined_emit. event_ok. }
    intros _ _. eapply confined_bind.
    { apply process_articles_confined. exact Hrvc. }
    intros rs' Hrs'. eapply confined_bind.
    { apply confined_emit. event_ok. }
    intros _ _. apply confined_ret. assumption.
Qed.

Lemma process_blogs_confined E rvc feeds rs :
  use_rvc rs = rvc →
  confined (pipeline_event rvc) (λ rs', use_rvc rs' = rvc)
    (for_each (process_blog E) feeds rs).
Proof.
  intros Hrvc.
  apply (confined_for_each _ (λ rs', use_rvc rs' = rvc)); [|exact Hrvc].
  intros feed rs0. apply process_blog_confined.
Qed.

(** ** Model resolution *)

(** Lines 218-228 never raise: the run state they leave has conversion on
    exactly when a model source is configured and the model was obtained. *)
Lemma resolve_model_run E w :
  resolve_model E w =
    if truthy (HF_MODEL_URL E) then
      match download_model_if_needed E w with
      | Ok model w1 =>
          Ok {| use_rvc := true; model_pth := fst model;
                model_index := snd model; total_sent := 0 |}
             (record_events [Stdout (LogModelReady (fst model))] w1)
      | Raise _ w1 =>
          Ok {| use_rvc := false; model_pth := []; model_index := [];
                total_sent := 0 |}
             (record_events [Stdout LogModelFailed] w1)
      end
    else Ok {| use_rvc := false; model_pth := []; model_index := [];
               total_sent := 0 |} w.
Proof.
  unfold resolve_model, try_except. destruct (truthy (HF_MODEL_URL E)); [|reflexivity].
  rewrite bind_run. destruct (download_model_if_needed E w); reflexivity.
Qed.

Lemma main_run E w :
  main E w =
    match resolve_model E (record_events [Stdout LogBanner] w) with
    | Ok rs w0 =>
        match for_each (process_blog E) FEEDS rs w0 with
        | Ok rs' w1 =>
            Ok rs' (record_events
                      [Stdout (if (total_sent rs' =? 0)%nat then LogSilent
                               else LogDone (total_sent rs'))] w1)
        | Raise e w1 => Raise e w1
        end
    | Raise e w0 => Raise e w0
    end.
Proof.
  unfold main. rewrite bind_run, print_run, bind_run.
  destruct (resolve_model E _) as [rs w0|]; [|reflexivity].
  rewrite bind_run. destruct (for_each _ _ _ _) as [rs' w1|]; [|reflexivity].
  rewrite bind_run. destruct (total_sent rs' =? 0)%nat; reflexivity.
Qed.


(** ** Fallbacks *)

(** The first call of a delivery is the audio post. *)
Lemma delivery_events_head E t title link data :
  ∃ notices,
    delivery_events E t title link data
    = post_event E t (SendAudio (audio_caption title link) data) :: notices.
Proof.
  unfold delivery_events, post_event. cbn zeta.
  destruct (tg_post E t _) as [resp|]; [destruct (ok resp) eqn:Hok|];
    rewrite ?Hok; eexists; reflexivity.
Qed.

(** A delivery that returns has had its audio post answered. *)
Lemma delivery_events_answered E t title link data :
  delivery_returns E t title link data = true →
  ∃ sent notices,
    delivery_events E t title link data
    = TgPost (SendAudio (audio_caption title link) data) sent :: notices ∧
    Forall (λ ev, ∀ caption data' sent', ev ≠ TgPost (SendAudio caption data') sent')
      notices.
Proof.
  unfold delivery_events, delivery_returns, post_event. cbn zeta.
  destruct (tg_post E t _) as [resp|]; [|discriminate].
  destruct (ok resp); intros Hret; eexists _, _; (split; [reflexivity|]).
  - apply Forall_nil_2.
  - destruct (tg_post E (S (S t)) _);
      repeat apply Forall_cons_2; try apply Forall_nil_2; discriminate.
Qed.

(** C3: with conversion enabled, when [apply_rvc] raises for an article
    whose speech was synthesized, the error is absorbed: the conversion
    step hands the speech file, still holding the unconverted speech, to
    the delivery, whose first call, the next call of the run, is the audio
    post of that speech.  When the delivery returns (the channel answers
    its posts), the article is processed to its end and counted, and the
    loop goes on to the next articles with conversion still enabled. *)
Theorem conversion_failure_delivers_speech E a rs w summary tts_path w1 e w2 :
  use_rvc rs = true →
  synthesize E a w = Ok (summary, tts_path) w1 →
  apply_rvc E tts_path (replace tts_path (u ".mp3") (u "_kanevsky.mp3"))
    (model_pth rs) (model_index rs) w1 = Raise e w2 →
  let speech := Speech (title a ++ u ". " ++ summary) in
  let caption := audio_caption (title a) (link a) in
  let w3 := record_events [Stdout LogRvcError] w2 in
  convert_voice E rs tts_path w1 = Ok tts_path w3 ∧
  fs w3 !! tts_path = Some speech ∧
  (∃ then_, trace (world_of (process_article E a rs w))
            = trace w3 ++ post_event E (length (trace w3)) (SendAudio caption speech)
                :: then_) ∧
  (∀ rs' w', process_article E a rs w = Ok rs' w' → use_rvc rs' = true) ∧
  (∀ w4, tg_send_audio E (title a) (link a) tts_path w3 = Ok tt w4 →
     ∃ w' sent notices,
       process_article E a rs w = Ok (count_sent rs) w' ∧
       trace w' = trace w3 ++ TgPost (SendAudio caption speech) sent
                    :: notices ++ [Stdout LogSent; Sleep 2] ∧
       ∀ rest, for_each (process_article E) (a :: rest) rs w
               = for_each (process_article E) rest (count_sent rs) w').
Proof.
  intros Hon Hsyn Hrvc speech caption w3.
  destruct (synthesize_spec E a w)
    as (summary' & base & d & _ & w1' & _ & _ & [(Hsyn' & _ & Hfile)|(Hsyn' & _)]);
    rewrite Hsyn in Hsyn'; inversion Hsyn'; subst summary' tts_path w1'.
  destruct (derived_names_distinct base) as (Hin & Hout & Hkan & Hkan_in & Hkan_out & _).
  destruct (apply_rvc_spec E base _ (model_pth rs) (model_index rs) w1
              Hkan_in Hkan_out) as (_ & _ & _ & _ & Hframe & _).
  rewrite Hrvc in Hframe. cbn [world_of] in Hframe.
  assert (Hkept : fs w3 !! (base ++ u ".mp3") = Some speech)
    by (cbn [w3 fs record_events]; rewrite Hframe by assumption; exact Hfile).
  pose proof (convert_voice_failed E rs _ w1 e w2 Hon Hrvc) as Hconv.
  fold w3 in Hconv.
  pose proof (process_article_run E a rs w) as Hrun.
  rewrite Hsyn in Hrun. cbn [snd] in Hrun. rewrite Hconv, Hkept in Hrun.
  cbn zeta in Hrun. fold caption in Hrun.
  split; [exact Hconv|]. split; [exact Hkept|]. split; [|split].
  - destruct (delivery_events_head E (length (trace w3)) (title a) (link a) speech)
      as [notices Hhead].
    fold caption in Hhead. rewrite Hrun.
    destruct (delivery_returns E _ _ _ _); eexists;
      cbn [world_of trace record_events drop_files]; rewrite Hhead; trace_eq.
  - intros rs' w'. rewrite Hrun.
    destruct (delivery_returns E _ _ _ _); intros [= <- <-]. exact Hon.
  - intros w4 Hsent. rewrite tg_send_audio_run, Hkept in Hsent.
    destruct (delivery_returns E (length (trace w3)) (title a) (link a) speech)
      eqn:Hret; [|discriminate].
    destruct (delivery_events_answered E _ _ _ _ Hret) as (sent & notices & Hev & _).
    fold caption in Hev.
    eexists _, sent, notices. split; [exact Hrun|].
    split; [cbn [trace record_events drop_files]; rewrite Hev; trace_eq|].
    intros rest. cbn [for_each]. rewrite bind_run, Hrun. reflexivity.
Qed.

Lemma conversion_failure_delivers_speech_witness :
  let E := sample_env (u "https://huggingface.example/kanevsky.zip") sample_now
             None None true ConnectionFailed false true in
  ∃ w' sent notices,
    process_article E sample_article sample_state empty_world
    = Ok (count_sent sample_state) w' ∧
    trace w' =
      [Stdout (LogArticle (u "Zero-day"));
       GroqCreate (summary_prompt (u "Zero-day") (u "Details.")) false;
       Stdout LogGroqError;
       Stdout (LogSummary (u "Новая статья: Zero-day"));
       GttsSave (u "Zero-day. Новая статья: Zero-day") (u "/tmp/tmp4.mp3") true;
       Ffmpeg (u "/tmp/tmp4.mp3") (u "/tmp/tmp4_in.wav") true;
       RvcLoadModel (model_pth sample_state) true;
       RvcInferFile (u "/tmp/tmp4_in.wav") (u "/tmp/tmp4_rvc.wav") false]
      ++ Stdout LogRvcError
      :: TgPost (SendAudio (audio_caption (u "Zero-day") (link sample_article))
                   (Speech (u "Zero-day. Новая статья: Zero-day"))) sent
      :: notices ++ [Stdout LogSent; Sleep 2].
Proof.
  intros E.
  edestruct (conversion_failure_delivers_speech E sample_article sample_state
               empty_world) as (_ & _ & _ & _ & Hdelivered).
  - reflexivity.
  - vm_compute. reflexivity.
  - vm_compute. reflexivity.
  - edestruct Hdelivered as (w' & sent & notices & Hrun & Htrace & _).
    + vm_compute. reflexivity.
    + exists w', sent, notices. split; [exact Hrun|]. exact Htrace.
Defined.






(** ** Whole runs *)

Lemma resolve_model_outcome E w :
  ∃ rs0 w0 acquisition,
    resolve_model E w = Ok rs0 w0 ∧
    trace w0 = trace w ++ acquisition ∧
    (acquisition = [] ∨
     (∃ pth, acquisition = [Stdout (LogModelCached pth); Stdout (LogModelReady pth)]) ∨
     (∃ got outcome,
        acquisition = [Stdout (LogModelDownloading (HF_MODEL_URL E));
                       HttpGet (HF_MODEL_URL E) got; Stdout outcome])) ∧
    (truthy (HF_MODEL_URL E) = false → use_rvc rs0 = false ∧ acquisition = []) ∧
    (∀ e w1, truthy (HF_MODEL_URL E) = true →
             download_model_if_needed E w = Raise e w1 →
             use_rvc rs0 = false ∧ w0 = record_events [Stdout LogModelFailed] w1).
Proof.
  rewrite resolve_model_run.
  destruct (truthy (HF_MODEL_URL E)) eqn:Hurl.
  2:{ exists {| use_rvc := false; model_pth := []; model_index := [];
                total_sent := 0 |}, w, [].
      rewrite app_nil_r. repeat split; auto; discriminate. }
  rewrite download_model_if_needed_run. cbn zeta.
  destruct (glob_files E (u ".pth") (cache w)) as [|pth rest].
  - destruct (requests_get E _ _) as [|[|] [members|]];
      try destruct (rglob_files E (u ".pth") _) as [|pth rest];
      eexists _, _, [_; _; _]; (split; [reflexivity|]);
      (split; [cbn [trace record_events set_cache]; trace_eq|]);
      (split; [right; right; eexists _, _; reflexivity|]);
      (split; [discriminate|]);
      intros e w1 _ Hraise; inversion Hraise; subst; auto.
  - eexists _, _, [_; _]. split; [reflexivity|].
    split; [cbn [trace record_events]; trace_eq|].
    split; [right; left; eexists; reflexivity|].
    split; [discriminate|]. intros e w1 _ Hraise. discriminate Hraise.
Qed.



(** *** What is posted *)

Lemma audio_posts_app d d' : audio_posts (d ++ d') = audio_posts d ++ audio_posts d'.
Proof. apply omap_app. Qed.

Lemma audio_captions_app d d' :
  audio_captions (d ++ d') = audio_captions d ++ audio_captions d'.
Proof. apply omap_app. Qed.

Lemma audio_captions_posts d : audio_captions d = (audio_posts d).*1.
Proof.
  induction d as [|ev d IH]; [reflexivity|].
  unfold audio_captions, audio_posts in *. csimpl.
  destruct ev as [| | | | | | | |[] ?| |]; csimpl; rewrite IH; reflexivity.
Qed.

Lemma audio_posts_quiet d :
  Forall (λ ev, ¬ channel_post ev) d → audio_posts d = [].
Proof.
  induction 1 as [|ev d Hev _ IH]; [reflexivity|].
  unfold audio_posts in *. csimpl. rewrite IH.
  destruct ev as [| | | | | | | |[]| |]; simpl in Hev; tauto || reflexivity.
Qed.

(** A delivery that returns has made one audio post. *)
Lemma audio_posts_delivery E t title link data :
  delivery_returns E t title link data = true →
  audio_posts (delivery_events E t title link data)
  = [(audio_caption title link, data)].
Proof.
  unfold delivery_events, delivery_returns, post_event. cbn zeta.
  destruct (tg_post E t _) as [resp|]; [|discriminate].
  destruct (ok resp); [reflexivity|].
  destruct (tg_post E (S (S t)) _); reflexivity.
Qed.

Lemma preparation_quiet d :
  Forall preparation_event d → Forall (λ ev, ¬ channel_post ev) d.
Proof.
  intros Hd. eapply Forall_impl; [exact Hd|].
  intros ev. destruct ev as [[]| | | | | | | | | |]; simpl; tauto.
Qed.

Lemma conversion_quiet d :
  Forall (λ ev, conversion_event ev ∨ ev = Stdout LogRvcOk ∨ ev = Stdout LogRvcError) d →
  Forall (λ ev, ¬ channel_post ev) d.
Proof.
  intros Hd. eapply Forall_impl; [exact Hd|].
  intros ev [Hconv|[->| ->]]; [|simpl; tauto|simpl; tauto].
  destruct ev; simpl in *; tauto.
Qed.

(** One processed article is one audio post, captioned with its title and
    link; with conversion off it carries the speech synthesized for the
    article. *)
Lemma process_article_posts_once E a rs w rs' w' :
  process_article E a rs w = Ok rs' w' →
  rs' = count_sent rs ∧
  ∃ data,
    audio_posts (trace w')
    = audio_posts (trace w) ++ [(audio_caption (title a) (link a), data)] ∧
    (use_rvc rs = false → ∃ summary, data = Speech (title a ++ u ". " ++ summary)).
Proof.
  intros Hrun.
  destruct (process_article_outcome E a rs w) as (summary & base & d & Hd & Hout).
  cbn zeta in Hout.
  destruct Hout as [(w1 & Hraise & _)
                   |(w1 & d' & data & t & Hdone & Hd' & Hoff & Hkind & _)];
    rewrite Hrun in *; [discriminate|].
  destruct Hdone as [(Hok & Hret & Htrace & _)|(Hraise & _)]; [|discriminate].
  inversion Hok; subst rs' w1. split; [reflexivity|].
  exists data. split.
  - rewrite Htrace, !audio_posts_app, audio_posts_delivery by assumption.
    rewrite (audio_posts_quiet d) by (apply preparation_quiet; assumption).
    rewrite (audio_posts_quiet d') by (apply conversion_quiet; assumption).
    reflexivity.
  - intros Hswitch. destruct Hkind as [->|Hon]; [eauto | congruence].
Qed.

(** The loop over the articles of a source makes one audio post per
    article, in order, and counts them. *)
Lemma process_articles_posts E articles : ∀ rs w rs' w',
  for_each (process_article E) articles rs w = Ok rs' w' →
  audio_captions (trace w')
  = audio_captions (trace w)
    ++ map (λ a, audio_caption (title a) (link a)) articles ∧
  total_sent rs' = (total_sent rs + length articles)%nat ∧
  use_rvc rs' = use_rvc rs.
Proof.
  induction articles as [|a rest IH]; intros rs w rs' w' Hrun.
  - inversion Hrun; subst. rewrite app_nil_r. cbn [length]. auto with lia.
  - cbn [for_each] in Hrun. rewrite bind_run in Hrun.
    destruct (process_article E a rs w) as [rs1 w1|e w1] eqn:Hfirst; [|discriminate].
    destruct (process_article_posts_once E a rs w rs1 w1 Hfirst)
      as (-> & data & Hposts & _).
    destruct (IH _ _ _ _ Hrun) as (Hrest & Hcount & Hswitch).
    rewrite Hrest, !audio_captions_posts, Hposts, fmap_app, <- app_assoc.
    cbn [map app length count_sent total_sent use_rvc fmap list_fmap fst] in *.
    split; [reflexivity|]. split; [lia | assumption].
Qed.

(** With conversion off, every post of the loop carries the speech
    synthesized for its article. *)
Lemma process_articles_speech E articles : ∀ rs w rs' w',
  use_rvc rs = false →
  for_each (process_article E) articles rs w = Ok rs' w' →
  ∃ summaries,
    length summaries = length articles ∧
    audio_posts (trace w')
    = audio_posts (trace w) ++ zip_with speech_post articles summaries.
Proof.
  induction articles as [|a rest IH]; intros rs w rs' w' Hoff Hrun.
  - inversion Hrun; subst. exists []. rewrite app_nil_r. auto.
  - cbn [for_each] in Hrun. rewrite bind_run in Hrun.
    destruct (process_article E a rs w) as [rs1 w1|e w1] eqn:Hfirst; [|discriminate].
    destruct (process_article_posts_once E a rs w rs1 w1 Hfirst)
      as (-> & data & Hposts & Hspeech).
    destruct (Hspeech Hoff) as [summary ->].
    destruct (IH (count_sent rs) _ _ _ Hoff Hrun) as (summaries & Hlen & Hrest).
    exists (summary :: summaries). cbn [length zip_with].
    split; [congruence|]. rewrite Hrest, Hposts, <- app_assoc. reflexivity.
Qed.

(** *** One source *)

(** [process_blog] by what the feed reader returns and by whether the
    header post gets a response. *)
Lemma process_blog_run E blog_name feed_url rs w :
  process_blog E (blog_name, feed_url) rs w =
    match get_recent_articles E feed_url (record_events [Stdout (LogBlog blog_name)] w) with
    | Ok [] w1 => Ok rs (record_events [Stdout LogNoNewArticles] w1)
    | Ok articles w1 =>
        let header :=
          SendMessage
            (blog_header blog_name (strftime_date E (now_utc E (length (trace w1))))
               (length articles)) in
        match tg_post E (length (trace w1)) header with
        | Some resp =>
            match for_each (process_article E) articles rs
                    (record_events [TgPost header (ok resp); Sleep 1] w1) with
            | Ok rs' w2 => Ok rs' (record_events [Stdout LogBlank] w2)
            | Raise e w2 => Raise e w2
            end
        | None => Raise RequestException (record_events [TgPostError header] w1)
        end
    | Raise e w1 => Raise e w1
    end.
Proof.
  unfold process_blog. rewrite bind_run, print_run, bind_run.
  destruct (get_recent_articles E feed_url _) as [[|a articles] w1|e w1];
    [reflexivity| |reflexivity].
  rewrite bind_run, datetime_now_run, bind_run, tg_send_text_run.
  cbn zeta.
  destruct (tg_post E (length (trace w1)) _) as [resp|]; [|reflexivity].
  rewrite bind_run, sleep_run.
  rewrite bind_run, record_events_app. cbn [app].
  destruct (for_each _ _ _ _); reflexivity.
Qed.

(** The feed reader posts nothing. *)
Lemma get_recent_articles_quiet E feed_url w articles w1 :
  get_recent_articles E feed_url w = Ok articles w1 →
  ∃ d, trace w1 = trace w ++ d ∧ Forall (λ ev, ¬ channel_post ev) d ∧
       fs w1 = fs w ∧ cache w1 = cache w.
Proof.
  intros Hrun. apply get_recent_articles_returned in Hrun.
  destruct (feedparser_parse E _ _); destruct Hrun as [_ ->];
    eexists; (split; [reflexivity|]);
    (split; [repeat apply Forall_cons_2; try apply Forall_nil_2; simpl; tauto|]);
    split; reflexivity.
Qed.

(** With conversion off, a source that is processed to its end has had
    each article the feed reader returned for it posted as audio, in
    order, carrying the speech synthesized for the article. *)
Lemma process_blog_speech E blog_name feed_url rs w articles w1 rs' w' :
  use_rvc rs = false →
  get_recent_articles E feed_url (record_events [Stdout (LogBlog blog_name)] w)
  = Ok articles w1 →
  process_blog E (blog_name, feed_url) rs w = Ok rs' w' →
  use_rvc rs' = false ∧
  ∃ summaries,
    length summaries = length articles ∧
    audio_posts (trace w')
    = audio_posts (trace w) ++ zip_with speech_post articles summaries.
Proof.
  intros Hoff Hrecent. rewrite process_blog_run, Hrecent.
  destruct (get_recent_articles_quiet _ _ _ _ _ Hrecent) as (d & Hd & Hquiet & _).
  assert (Hlisted : audio_posts (trace w1) = audio_posts (trace w)).
  { rewrite Hd. cbn [trace record_events].
    rewrite !audio_posts_app, (audio_posts_quiet d) by assumption.
    cbn. rewrite !app_nil_r. reflexivity. }
  destruct articles as [|a articles].
  - intros [= <- <-]. split; [assumption|]. exists [].
    cbn [trace record_events zip_with]. rewrite audio_posts_app, Hlisted.
    cbn. rewrite !app_nil_r. auto.
  - cbn zeta. destruct (tg_post E (length (trace w1)) _) as [resp|]; [|discriminate].
    destruct (for_each (process_article E) (a :: articles) rs _)
      as [rs2 w2|e w2] eqn:Hloop; [|discriminate].
    intros [= <- <-].
    pose proof (process_articles_posts _ _ _ _ _ _ Hloop) as (_ & _ & Hswitch).
    split; [congruence|].
    destruct (process_articles_speech _ _ _ _ _ _ Hoff Hloop)
      as (summaries & Hlen & Hposts).
    exists summaries. split; [assumption|].
    cbn [trace record_events] in *.
    rewrite audio_posts_app, Hposts, audio_posts_app, Hlisted.
    cbn. rewrite !app_nil_r. reflexivity.
Qed.

(** C8: whether voice conversion is active is settled by [resolve_model],
    once, before the loops: it makes at most one acquisition attempt and
    never raises; with no model source configured it makes none and
    conversion is off; when the acquisition raises, the failure is printed
    and conversion is off.  The run then is the loop over the sources from
    that state: nothing in it acquires the model again or changes the
    switch.  With the switch off the converter is never called, every
    audio post made or tried carries synthesized speech as it is, and a
    source that is processed to its end has had every article the feed
    reader returned for it posted as audio, in order, carrying the speech
    synthesized for it. *)
Theorem conversion_decided_once E w :
  let start := record_events [Stdout LogBanner] w in
  ∃ rs0 w0 acquisition d,
    resolve_model E start = Ok rs0 w0 ∧
    trace w0 = trace start ++ acquisition ∧
    (acquisition = [] ∨
     (∃ pth, acquisition = [Stdout (LogModelCached pth); Stdout (LogModelReady pth)]) ∨
     (∃ got outcome,
        acquisition = [Stdout (LogModelDownloading (HF_MODEL_URL E));
                       HttpGet (HF_MODEL_URL E) got; Stdout outcome])) ∧
    (truthy (HF_MODEL_URL E) = false → use_rvc rs0 = false ∧ acquisition = []) ∧
    (∀ e w1, truthy (HF_MODEL_URL E) = true →
             download_model_if_needed E start = Raise e w1 →
             use_rvc rs0 = false ∧ w0 = record_events [Stdout LogModelFailed] w1) ∧
    main E w =
      match for_each (process_blog E) FEEDS rs0 w0 with
      | Ok rs' w1 =>
          Ok rs' (record_events
                    [Stdout (if (total_sent rs' =? 0)%nat then LogSilent
                             else LogDone (total_sent rs'))] w1)
      | Raise e w1 => Raise e w1
      end ∧
    trace (world_of (main E w)) = trace w0 ++ d ∧
    Forall (λ ev, ¬ acquisition_event ev) d ∧
    (use_rvc rs0 = false →
     Forall (λ ev, ¬ conversion_event ev) d ∧
     ∀ ev data, ev ∈ d → posted_audio ev = Some data → ∃ text, data = Speech text) ∧
    (∀ rs' w', main E w = Ok rs' w' → use_rvc rs' = use_rvc rs0) ∧
    (∀ feed rs w1 articles w2 rs' w',
       use_rvc rs = false →
       get_recent_articles E feed.2 (record_events [Stdout (LogBlog feed.1)] w1)
       = Ok articles w2 →
       process_blog E feed rs w1 = Ok rs' w' →
       use_rvc rs' = false ∧
       ∃ summaries,
         length summaries = length articles ∧
         audio_posts (trace w')
         = audio_posts (trace w1) ++ zip_with speech_post articles summaries).
Proof.
  intros start.
  destruct (resolve_model_outcome E start)
    as (rs0 & w0 & acquisition & Hres & Htrace & Hshape & Hunset & Hfailed).
  assert (Hmain : main E w =
            match for_each (process_blog E) FEEDS rs0 w0 with
            | Ok rs' w1 =>
                Ok rs' (record_events
                          [Stdout (if (total_sent rs' =? 0)%nat then LogSilent
                                   else LogDone (total_sent rs'))] w1)
            | Raise e w1 => Raise e w1
            end)
    by (rewrite main_run; fold start; rewrite Hres; reflexivity).
  assert (Hloops : ∃ d, trace (world_of (main E w)) = trace w0 ++ d ∧
                        Forall (pipeline_event (use_rvc rs0)) d ∧
                        ∀ rs' w', main E w = Ok rs' w' → use_rvc rs' = use_rvc rs0).
  { rewrite Hmain.
    destruct (process_blogs_confined E (use_rvc rs0) FEEDS rs0 eq_refl w0)
      as (d & Hd & HP & Hout).
    destruct (for_each (process_blog E) FEEDS rs0 w0) as [rs' w1|e w1];
      cbn [world_of] in *.
    - exists (d ++ [Stdout (if (total_sent rs' =? 0)%nat then LogSilent
                            else LogDone (total_sent rs'))]).
      split; [cbn [trace record_events]; rewrite Hd; trace_eq|].
      split; [|intros rs'' w'' Hrun; inversion Hrun; subst; assumption].
      apply Forall_app_2; [assumption|].
      apply Forall_cons_2; [|apply Forall_nil_2].
      destruct (total_sent rs' =? 0)%nat; event_ok.
    - exists d. split; [assumption|]. split; [assumption|]. discriminate. }
  destruct Hloops as (d & Hd & HP & Hswitch).
  exists rs0, w0, acquisition, d.
  repeat (split; [assumption|]).
  split; [eapply Forall_impl; [exact HP|]; intros ev [Hacq _]; exact Hacq|].
  split; [|split; [assumption|]].
  - intros Hoff. rewrite Hoff in HP. split.
    + eapply Forall_impl; [exact HP|]. intros ev [_ Hev]. apply Hev. reflexivity.
    + intros ev data Hin Hposted.
      rewrite Forall_forall in HP. destruct (HP _ Hin) as [_ Hev].
      destruct (Hev eq_refl) as [_ Hspeech]. eapply Hspeech. eassumption.
  - intros [blog_name feed_url]. apply process_blog_speech.
Qed.

(** C2 fails on a cache the function itself filled from an archive that
    keeps the weights in a folder: the first call downloads, extracts and
    returns the weights it finds below the cache directory; the next run,
    given that very directory, does not see them and downloads again. *)
Theorem nested_weights_downloaded_again :
  let url := u "https://huggingface.example/kanevsky.zip" in
  let archive := HttpStatus true (Some [u "kanevsky/kanevsky.pth";
                                        u "kanevsky/added.index"]) in
  let E := sample_env url sample_now None None true archive true true in
  ∃ pth index w1 w2,
    download_model_if_needed E empty_world = Ok (pth, index) w1 ∧
    pth = MODEL_CACHE_DIR E ++ u "/kanevsky/kanevsky.pth" ∧
    cache w1 = [u "kanevsky"; u "kanevsky/kanevsky.pth"; u "kanevsky/added.index"] ∧
    download_model_if_needed E (set_cache (cache w1) empty_world)
    = Ok (pth, index) w2 ∧
    trace w2 = [Stdout (LogModelDownloading url); HttpGet url true].
Proof.
  intros url archive E. eexists _, _, _, _.
  split; [vm_compute; reflexivity|].
  split; [vm_compute; reflexivity|].
  split; [vm_compute; reflexivity|].
  split; vm_compute; reflexivity.
Qed.

(** C6 fails when the conversion fails after its first step: the
    article is processed to its end, and the intermediate WAV file written
    by the first ffmpeg run is still on disk afterwards. *)
Theorem failed_conversion_leaves_wav :
  let E := sample_env (u "https://huggingface.example/kanevsky.zip") sample_now
             None None true ConnectionFailed false true in
  ∃ w',
    process_article E sample_article sample_state empty_world
    = Ok (count_sent sample_state) w' ∧
    fs w' !! u "/tmp/tmp4_in.wav"
    = Some (Transcoded (Speech (u "Zero-day. Новая статья: Zero-day"))) ∧
    fs w' !! u "/tmp/tmp4.mp3" = None.
Proof.
  intros E. eexists.
  split; [vm_compute; reflexivity|].
  split; vm_compute; reflexivity.
Qed.

(** When the conversion succeeds, nothing produced for the article is left:
    the speech file, the converted file and both WAV files are gone. *)
Lemma converted_article_leaves_nothing :
  let E := sample_env (u "https://huggingface.example/kanevsky.zip") sample_now
             None None true ConnectionFailed true true in
  ∃ w',
    process_article E sample_article sample_state empty_world
    = Ok (count_sent sample_state) w' ∧ fs w' = ∅.
Proof.
  intros E. eexists. split; vm_compute; reflexivity.
Qed.


(** * Further properties *)

(** ** Feed reader: selection *)

Lemma eligible_article_recent cutoff e pub :
  entry_pub e = Value (Some pub) → cutoff ≤ pub →
  eligible_article cutoff e = Some (make_article e pub).
Proof.
  intros Hpub Hle. pose proof (entry_pub_eligible cutoff e) as Helig.
  rewrite Hpub in Helig. rewrite Helig.
  destruct (Z.ltb_spec pub cutoff); [lia | reflexivity].
Qed.

(** X1: when the feed reader returns, an entry whose timestamp is not
    older than the cutoff, however far in the future it lies, is in the
    result at the position given by the number of eligible entries before
    it, as long as that number is below the cap. *)
Theorem eligible_entry_returned E feed_url w before e after pub articles w' :
  feedparser_parse E (length (trace w)) feed_url = Some (before ++ e :: after) →
  entry_pub e = Value (Some pub) →
  cutoff_at E w ≤ pub →
  (length (omap (eligible_article (cutoff_at E w)) before) < MAX_ARTICLES_PER_BLOG)%nat →
  get_recent_articles E feed_url w = Ok articles w' →
  articles !! length (omap (eligible_article (cutoff_at E w)) before)
  = Some (make_article e pub).
Proof.
  intros Hfeed Hpub Hle Hroom Hrun.
  apply get_recent_articles_returned in Hrun. rewrite Hfeed in Hrun.
  destruct Hrun as [Hscan _].
  rewrite (scan_entries_from_empty _ _ _ Hscan), omap_app. csimpl.
  rewrite (eligible_article_recent _ _ _ Hpub Hle).
  rewrite lookup_take_lt by assumption.
  apply list_lookup_middle. reflexivity.
Qed.

Lemma eligible_entry_returned_witness :
  let tomorrow := sample_entry "tomorrow" (Some (stamp 2026 11 5 12 0 0)) None in
  let feed := [sample_entry "stale" (Some (stamp 2026 11 1 0 0 0)) None; tomorrow] in
  let E := sample_env [] sample_now (Some feed) None true ConnectionFailed true true in
  sample_now < timestamp (stamp 2026 11 5 12 0 0) ∧
  ∃ articles w',
    get_recent_articles E (u "https://blockthreat.io/feed/") empty_world = Ok articles w' ∧
    articles !! 0%nat
    = Some (make_article tomorrow (timestamp (stamp 2026 11 5 12 0 0))).
Proof.
  intros tomorrow feed E. split; [reflexivity|].
  eexists _, _. split; [vm_compute; reflexivity|].
  refine (eligible_entry_returned E (u "https://blockthreat.io/feed/") empty_world
            [sample_entry "stale" (Some (stamp 2026 11 1 0 0 0)) None]
            tomorrow [] (timestamp (stamp 2026 11 5 12 0 0)) _ _ _ _ _ _ _).
  - reflexivity.
  - reflexivity.
  - vm_compute. discriminate.
  - vm_compute. lia.
  - vm_compute. reflexivity.
Defined.

(** Entries whose publication date is older than the cutoff leave no mark
    on the loop. *)
Lemma scan_entries_fresh cutoff entries : ∀ articles,
  scan_entries cutoff (filter (λ e, negb (stale_publication cutoff e)) entries) articles
  = scan_entries cutoff entries articles.
Proof.
  induction entries as [|e rest IH]; intros articles; [reflexivity|].
  destruct (stale_publication cutoff e) eqn:Hstale.
  - rewrite filter_cons_False by (rewrite Hstale; exact id).
    simpl. rewrite entry_pub_cases, IH.
    unfold stale_publication in Hstale.
    destruct (published_parsed e) as [val|]; [|discriminate].
    destruct (datetime_utc val) as [pub|]; [|discriminate].
    rewrite Hstale. reflexivity.
  - rewrite filter_cons_True by (rewrite Hstale; exact I).
    simpl. destruct (entry_pub e) as [[pub|]|]; [|apply IH|reflexivity].
    destruct (pub <? cutoff); [apply IH|]. case_cond; [reflexivity|apply IH].
Qed.

(** X2: the last-updated timestamp is consulted only when the publication
    timestamp is absent: entries whose publication date is older than the
    cutoff contribute nothing, whatever their last-updated timestamp, so
    the call ends as it does on the feed with those entries dropped. *)
Theorem stale_publication_shadows_update E feed_url w entries :
  feedparser_parse E (length (trace w)) feed_url = Some entries →
  let fresh := filter (λ e, negb (stale_publication (cutoff_at E w) e)) entries in
  scan_entries (cutoff_at E w) fresh [] = scan_entries (cutoff_at E w) entries [] ∧
  get_recent_articles E feed_url w
  = lift (scan_entries (cutoff_at E w) fresh [])
      (record_events [FeedParse feed_url true] w).
Proof.
  intros Hfeed fresh. split; [apply scan_entries_fresh|].
  rewrite get_recent_articles_run, Hfeed. unfold fresh.
  rewrite scan_entries_fresh. reflexivity.
Qed.

Lemma stale_publication_shadows_update_witness :
  let feed := [sample_entry "revised" (Some (stamp 2026 11 1 0 0 0))
                                       (Some (stamp 2026 11 4 11 0 0))] in
  let E := sample_env [] sample_now (Some feed) None true ConnectionFailed true true in
  ∃ w', get_recent_articles E (u "https://blockthreat.io/feed/") empty_world = Ok [] w'.
Proof.
  intros feed E.
  destruct (stale_publication_shadows_update E (u "https://blockthreat.io/feed/")
              empty_world feed eq_refl) as [_ Hrun].
  eexists. rewrite Hrun. vm_compute. reflexivity.
Defined.

(** X3: the loop stops at the cap: once [MAX_ARTICLES_PER_BLOG] eligible
    entries have been seen, what follows in the feed has no influence on
    the result. *)
Theorem entries_after_cap_ignored cutoff seen unseen :
  (MAX_ARTICLES_PER_BLOG ≤ length (omap (eligible_article cutoff) seen))%nat →
  scan_entries cutoff (seen ++ unseen) [] = scan_entries cutoff seen [].
Proof.
  intros Hfull. apply scan_entries_stops; [apply cap_positive|].
  cbn [length]. lia.
Qed.

Lemma entries_after_cap_ignored_witness :
  let seen := [sample_entry "first" (Some (stamp 2026 11 4 11 0 0)) None;
               sample_entry "second" (Some (stamp 2026 11 4 10 0 0)) None] in
  scan_entries (timestamp sample_cutoff)
    (seen ++ [sample_entry "third" (Some (stamp 2026 11 4 9 0 0)) None]) []
  = scan_entries (timestamp sample_cutoff) seen [].
Proof.
  intros seen. apply (entries_after_cap_ignored (timestamp sample_cutoff) seen).
  vm_compute. lia.
Defined.

(** ** Feed reader: the articles built *)

Lemma lstrip_clean s : starts_with_space (lstrip s) = false.
Proof.
  induction s as [|c s IH]; simpl; [reflexivity|].
  destruct (isspace c) eqn:Hc; [exact IH | simpl; exact Hc].
Qed.

Lemma lstrip_id s : starts_with_space s = false → lstrip s = s.
Proof. destruct s as [|c s]; simpl; [reflexivity|]. intros ->. reflexivity. Qed.

Lemma lstrip_snoc s c : isspace c = false → lstrip (s ++ [c]) = lstrip s ++ [c].
Proof.
  intros Hc. induction s as [|x s IH]; simpl; [rewrite Hc; reflexivity|].
  destruct (isspace x); [exact IH | reflexivity].
Qed.

(** Stripping the right end leaves a clean left end clean. *)
Lemma rstrip_clean_head s :
  starts_with_space s = false → starts_with_space (rstrip s) = false.
Proof.
  destruct s as [|c s]; [reflexivity|]. simpl. intros Hc.
  unfold rstrip. simpl. rewrite lstrip_snoc by assumption.
  rewrite rev_app_distr. simpl. exact Hc.
Qed.

Lemma strip_clean s :
  starts_with_space (strip s) = false ∧ starts_with_space (rev (strip s)) = false.
Proof.
  unfold strip. split.
  - apply rstrip_clean_head, lstrip_clean.
  - unfold rstrip. rewrite rev_involutive. apply lstrip_clean.
Qed.

Lemma strip_idempotent s : strip (strip s) = strip s.
Proof.
  destruct (strip_clean s) as [Hhead Htail].
  unfold strip at 1. rewrite (lstrip_id _ Hhead).
  unfold rstrip. rewrite (lstrip_id _ Htail). apply rev_involutive.
Qed.

(** X4: every article returned has a title that neither starts nor ends
    with whitespace (stripping it again changes nothing), a body of at most
    4000 characters, and a timestamp that is a whole second not older than
    the cutoff. *)
Theorem returned_articles_well_formed E feed_url w articles w' a :
  get_recent_articles E feed_url w = Ok articles w' →
  a ∈ articles →
  starts_with_space (title a) = false ∧
  starts_with_space (rev (title a)) = false ∧
  strip (title a) = title a ∧
  (length (content a) ≤ 4000)%nat ∧
  cutoff_at E w ≤ pub a ∧
  pub a mod 1000000 = 0.
Proof.
  intros Hrun Ha. apply get_recent_articles_returned in Hrun.
  destruct (feedparser_parse E (length (trace w)) feed_url) as [entries|];
    [|destruct Hrun as [-> _]; inversion Ha].
  destruct Hrun as [Hscan _].
  rewrite (scan_entries_from_empty _ _ _ Hscan) in Ha. apply subseteq_take in Ha.
  apply list_elem_of_omap in Ha as (e & _ & Helig).
  apply eligible_article_inv in Helig as (val & pub' & _ & Hdate & -> & Hle).
  cbn [title content pub make_article].
  destruct (strip_clean (default (u "Без заголовка") (e_title e))) as [Hhead Htail].
  repeat split; try assumption.
  - apply strip_idempotent.
  - rewrite length_take. lia.
  - unfold datetime_utc in Hdate. destruct (valid_date val); [|discriminate].
    injection Hdate as <-. unfold timestamp. apply Z.mod_mul. discriminate.
Qed.

Lemma returned_articles_well_formed_witness :
  let padded := {| e_title := Some (u "  Patch Tuesday "); e_link := None;
                   e_summary := None; e_description := Some (u "Details.");
                   published_parsed := Some (stamp 2026 11 4 11 0 0);
                   updated_parsed := None |} in
  let E := sample_env [] sample_now (Some [padded]) None true ConnectionFailed true true in
  let a := make_article padded (timestamp (stamp 2026 11 4 11 0 0)) in
  title a = u "Patch Tuesday" ∧ content a = u "Details." ∧
  starts_with_space (title a) = false ∧
  starts_with_space (rev (title a)) = false ∧
  strip (title a) = title a ∧
  (length (content a) ≤ 4000)%nat ∧
  cutoff_at E empty_world ≤ pub a ∧
  pub a mod 1000000 = 0.
Proof.
  intros padded E a. split; [reflexivity|]. split; [reflexivity|].
  eapply (returned_articles_well_formed E (u "https://blockthreat.io/feed/")
            empty_world).
  - vm_compute. reflexivity.
  - apply list_elem_of_singleton. reflexivity.
Defined.


(** ** One source *)

(** X5: a source for which the feed reader returns no article (its feed
    could not be parsed, or none of the entries read was eligible) is
    skipped: nothing is posted to the channel, no file and no cached model
    file is touched, and the run state is returned as it was. *)
Theorem empty_source_skipped E blog_name feed_url rs w w1 :
  get_recent_articles E feed_url (record_events [Stdout (LogBlog blog_name)] w)
  = Ok [] w1 →
  ∃ w' d,
    process_blog E (blog_name, feed_url) rs w = Ok rs w' ∧
    fs w' = fs w ∧ cache w' = cache w ∧
    trace w' = trace w ++ d ∧ Forall (λ ev, ¬ channel_post ev) d.
Proof.
  intros Hrecent. rewrite process_blog_run, Hrecent.
  destruct (get_recent_articles_quiet _ _ _ _ _ Hrecent)
    as (d & Hd & Hquiet & Hfs & Hcache).
  exists (record_events [Stdout LogNoNewArticles] w1),
    (Stdout (LogBlog blog_name) :: d ++ [Stdout LogNoNewArticles]).
  split; [reflexivity|].
  split; [exact Hfs|]. split; [exact Hcache|].
  split; [cbn [trace record_events] in *; rewrite Hd; trace_eq|].
  apply Forall_cons_2; [simpl; tauto|].
  apply Forall_app_2; [assumption|].
  apply Forall_cons_2; [simpl; tauto | apply Forall_nil_2].
Qed.

Lemma empty_source_skipped_witness :
  let E := sample_env [] sample_now
             (Some [sample_entry "stale" (Some (stamp 2026 11 1 0 0 0)) None;
                    sample_entry "undated" None None])
             None true ConnectionFailed true true in
  ∃ w' d,
    process_blog E (u "BlockThreat", u "https://blockthreat.io/feed/")
      sample_state empty_world = Ok sample_state w' ∧
    fs w' = fs empty_world ∧ cache w' = cache empty_world ∧
    trace w' = trace empty_world ++ d ∧ Forall (λ ev, ¬ channel_post ev) d.
Proof.
  intros E.
  eapply (empty_source_skipped E (u "BlockThreat") (u "https://blockthreat.io/feed/")
            sample_state empty_world).
  vm_compute. reflexivity.
Defined.

(** X6: for a source with articles, the header is posted once, before any
    article is processed; it names the source and counts between one and
    [MAX_ARTICLES_PER_BLOG] articles.  When the post gets a response, a
    pause of one second follows and the articles are processed in the
    order returned, an error among them leaving [process_blog] as it is;
    when it gets none, that error leaves [process_blog] and no article is
    processed. *)
Theorem batch_announced_before_articles E blog_name feed_url rs w articles w1 :
  get_recent_articles E feed_url (record_events [Stdout (LogBlog blog_name)] w)
  = Ok articles w1 →
  articles ≠ [] →
  let header :=
    blog_header blog_name (strftime_date E (now_utc E (length (trace w1))))
      (length articles) in
  process_blog E (blog_name, feed_url) rs w
  = match tg_post E (length (trace w1)) (SendMessage header) with
    | Some resp =>
        bind (for_each (process_article E) articles rs)
          (λ rs', bind (print LogBlank) (λ _, ret rs'))
          (record_events [TgPost (SendMessage header) (ok resp); Sleep 1] w1)
    | None =>
        Raise RequestException (record_events [TgPostError (SendMessage header)] w1)
    end ∧
  (1 ≤ length articles ≤ MAX_ARTICLES_PER_BLOG)%nat ∧
  ∃ rule date_line,
    header = rule ++ nl ++ blog_name ++ nl ++ date_line ++ str_of_nat (length articles)
             ++ u " " ++ (if (length articles =? 1)%nat then u "статья" else u "статьи").
Proof.
  intros Hrecent Hsome header.
  split; [|split].
  - rewrite process_blog_run, Hrecent.
    destruct articles as [|a articles]; [congruence|].
    cbn zeta. fold header.
    destruct (tg_post E (length (trace w1)) (SendMessage header)); [|reflexivity].
    rewrite bind_run. destruct (for_each _ _ _ _); reflexivity.
  - apply get_recent_articles_returned in Hrecent.
    destruct (feedparser_parse E _ feed_url); [|destruct Hrecent; congruence].
    destruct Hrecent as [Hscan _]. split.
    + destruct articles; [congruence | simpl; lia].
    + rewrite (scan_entries_from_empty _ _ _ Hscan), length_take. lia.
  - exists (u "━━━━━━━━━━━━━━━━━━━━"),
      (u "📅 " ++ strftime_date E (now_utc E (length (trace w1))) ++ u " · ").
    unfold header, blog_header. rewrite <- !app_assoc. reflexivity.
Qed.

Lemma batch_announced_before_articles_witness :
  let E := sample_env [] sample_now
             (Some [sample_entry "Zero-day" (Some (stamp 2026 11 4 11 0 0)) None])
             None true ConnectionFailed true true in
  let header := SendMessage (blog_header (u "BlockThreat") (u "04.11.2026") 1) in
  ∃ w',
    trace w' = [Stdout (LogBlog (u "BlockThreat"));
                FeedParse (u "https://blockthreat.io/feed/") true] ∧
    process_blog E (u "BlockThreat", u "https://blockthreat.io/feed/")
      sample_state empty_world
    = bind (for_each (process_article E) [sample_article] sample_state)
        (λ rs', bind (print LogBlank) (λ _, ret rs'))
        (record_events [TgPost header true; Sleep 1] w') ∧
    process_blog (losing is_text_post E)
      (u "BlockThreat", u "https://blockthreat.io/feed/") sample_state empty_world
    = Raise RequestException (record_events [TgPostError header] w').
Proof.
  intros E header.
  edestruct (batch_announced_before_articles E (u "BlockThreat")
               (u "https://blockthreat.io/feed/") sample_state empty_world)
    as (Hrun & _).
  { vm_compute. reflexivity. }
  { discriminate. }
  edestruct (batch_announced_before_articles (losing is_text_post E) (u "BlockThreat")
               (u "https://blockthreat.io/feed/") sample_state empty_world)
    as (Hlost & _).
  { vm_compute. reflexivity. }
  { discriminate. }
  eexists. split; [|split; [exact Hrun | exact Hlost]]. reflexivity.
Defined.

(** ** Deliveries *)

(** X7: when the loop over the articles of a source returns, it has made
    exactly one audio post per article, in the order of the articles, each
    captioned with its article's title and link, and the count of sent
    articles has grown by their number. *)
Theorem articles_delivered_in_order E articles rs w rs' w' :
  for_each (process_article E) articles rs w = Ok rs' w' →
  audio_captions (trace w')
  = audio_captions (trace w)
    ++ map (λ a, audio_caption (title a) (link a)) articles ∧
  total_sent rs' = (total_sent rs + length articles)%nat.
Proof.
  intros Hrun.
  destruct (process_articles_posts E articles rs w rs' w' Hrun) as (Hposts & Hcount & _).
  split; assumption.
Qed.

Lemma articles_delivered_in_order_witness :
  let E := sample_env [] sample_now None None true ConnectionFailed true false in
  let second := make_article (sample_entry "Botnet" (Some (stamp 2026 11 4 10 0 0)) None)
                  (timestamp (stamp 2026 11 4 10 0 0)) in
  ∃ rs' w',
    for_each (process_article E) [sample_article; second] sample_state empty_world
    = Ok rs' w' ∧
    audio_captions (trace w')
    = [audio_caption (u "Zero-day") (u "https://news.example/Zero-day");
       audio_caption (u "Botnet") (u "https://news.example/Botnet")] ∧
    total_sent rs' = 2%nat.
Proof.
  intros E second.
  destruct (for_each (process_article E) [sample_article; second] sample_state
              empty_world) as [rs' w'|e w'] eqn:Hrun;
    [|vm_compute in Hrun; discriminate Hrun].
  exists rs', w'. split; [reflexivity|].
  destruct (articles_delivered_in_order E [sample_article; second]
              sample_state empty_world rs' w' Hrun) as (Hposts & Hcount).
  split; [exact Hposts | exact Hcount].
Defined.

(** What one source adds to the count of sent articles is what it adds to
    the audio posts, and is at most the cap. *)
Lemma process_blog_counts E feed rs w rs' w' :
  process_blog E feed rs w = Ok rs' w' →
  (length (audio_captions (trace w')) + total_sent rs
   = length (audio_captions (trace w)) + total_sent rs')%nat ∧
  (total_sent rs ≤ total_sent rs' ≤ total_sent rs + MAX_ARTICLES_PER_BLOG)%nat.
Proof.
  destruct feed as [blog_name feed_url]. rewrite process_blog_run.
  destruct (get_recent_articles E feed_url _) as [articles w1|e w1] eqn:Hrecent;
    [|discriminate].
  assert (Hw1 : audio_captions (trace w1) = audio_captions (trace w) ∧
                (length articles ≤ MAX_ARTICLES_PER_BLOG)%nat).
  { split.
    - destruct (get_recent_articles_quiet _ _ _ _ _ Hrecent) as (d & Hd & Hquiet & _).
      rewrite Hd. cbn [trace record_events].
      rewrite !audio_captions_app, !audio_captions_posts.
      rewrite (audio_posts_quiet d) by assumption.
      cbn. rewrite !app_nil_r. reflexivity.
    - apply get_recent_articles_returned in Hrecent.
      destruct (feedparser_parse E _ feed_url).
      + destruct Hrecent as [Hscan _].
        rewrite (scan_entries_from_empty _ _ _ Hscan), length_take. lia.
      + destruct Hrecent as [-> _]. cbn [length]. lia. }
  destruct Hw1 as [Hw1 Hcap].
  destruct articles as [|a articles].
  - intros Hrun. inversion Hrun; subst. cbn [trace record_events].
    rewrite audio_captions_app, app_nil_r, Hw1. lia.
  - cbn zeta. destruct (tg_post E (length (trace w1)) _) as [resp|]; [|discriminate].
    destruct (for_each (process_article E) (a :: articles) rs _)
      as [rs2 w2|e w2] eqn:Hloop; [|discriminate].
    intros Hrun. inversion Hrun; subst.
    apply process_articles_posts in Hloop as (Hposts & Hcount & _).
    cbn [trace record_events] in *.
    rewrite audio_captions_app, app_nil_r, Hposts, !audio_captions_app, Hw1.
    rewrite !length_app, length_map. cbn [audio_captions omap list_omap length] in *.
    lia.
Qed.

Lemma process_blogs_count E feeds : ∀ rs w rs' w',
  for_each (process_blog E) feeds rs w = Ok rs' w' →
  (length (audio_captions (trace w')) + total_sent rs
   = length (audio_captions (trace w)) + total_sent rs')%nat ∧
  (total_sent rs' ≤ total_sent rs + length feeds * MAX_ARTICLES_PER_BLOG)%nat.
Proof.
  induction feeds as [|feed feeds IH]; intros rs w rs' w' Hrun.
  - inversion Hrun; subst. cbn [length]. lia.
  - cbn [for_each] in Hrun. rewrite bind_run in Hrun.
    destruct (process_blog E feed rs w) as [rs1 w1|e w1] eqn:Hfirst; [|discriminate].
    apply process_blog_counts in Hfirst as [Hfirst Hbound].
    apply IH in Hrun as [Hrest Hbound']. cbn [length]. lia.
Qed.

(** X8: when a run returns, the number it reports is the number of audio
    posts it made, which is at most [MAX_ARTICLES_PER_BLOG] per configured
    feed; its last print is the silent notice exactly when that number is
    zero, and the count otherwise. *)
Theorem reported_count_is_deliveries E w rs' w' :
  main E w = Ok rs' w' →
  (length (audio_captions (trace w'))
   = length (audio_captions (trace w)) + total_sent rs')%nat ∧
  (total_sent rs' ≤ length FEEDS * MAX_ARTICLES_PER_BLOG)%nat ∧
  ∃ before,
    trace w' = before ++ [Stdout (if (total_sent rs' =? 0)%nat then LogSilent
                                  else LogDone (total_sent rs'))].
Proof.
  rewrite main_run.
  destruct (resolve_model_outcome E (record_events [Stdout LogBanner] w))
    as (rs0 & w0 & acquisition & Hres & Htrace & Hshape & _).
  rewrite Hres.
  assert (Hstart : total_sent rs0 = 0%nat ∧
                   audio_captions (trace w0) = audio_captions (trace w)).
  { split.
    - rewrite resolve_model_run in Hres.
      destruct (truthy _); [destruct (download_model_if_needed _ _)|];
        inversion Hres; reflexivity.
    - rewrite Htrace. cbn [trace record_events].
      rewrite !audio_captions_app.
      destruct Hshape as [->|[[pth ->]|(got & outcome & ->)]];
        cbn; rewrite ?app_nil_r; reflexivity. }
  destruct Hstart as [Hzero Hquiet].
  destruct (for_each (process_blog E) FEEDS rs0 w0) as [rs1 w1|e w1] eqn:Hloops;
    [|discriminate].
  intros Hrun. inversion Hrun; subst rs1 w'. clear Hrun.
  apply process_blogs_count in Hloops as [Hcount Hbound].
  cbn [trace record_events]. rewrite audio_captions_app, app_nil_r.
  split; [rewrite <- Hquiet; lia|]. split; [lia|].
  exists (trace w1). reflexivity.
Qed.

Lemma reported_count_is_deliveries_witness :
  let E := sample_env [] sample_now
             (Some [sample_entry "Zero-day" (Some (stamp 2026 11 4 11 0 0)) None])
             None true ConnectionFailed true true in
  ∃ rs' w',
    main E empty_world = Ok rs' w' ∧
    total_sent rs' = 5%nat ∧ length (audio_captions (trace w')) = 5%nat.
Proof.
  intros E.
  destruct (main E empty_world) as [rs' w'|e w'] eqn:Hrun;
    [|vm_compute in Hrun; discriminate Hrun].
  exists rs', w'. split; [reflexivity|].
  destruct (reported_count_is_deliveries E empty_world rs' w' Hrun) as (Hcount & _).
  assert (Hsent : total_sent rs' = 5%nat)
    by (vm_compute in Hrun; inversion Hrun; reflexivity).
  split; [exact Hsent|]. rewrite Hcount, Hsent. reflexivity.
Defined.

(** ** Delivery channel *)

(** X9: when the channel accepts the audio post, [tg_send_audio] makes that
    one post, whose caption holds the title and the link, and sends no text
    notice; files are left as they are. *)
Theorem accepted_audio_sends_no_text E title link audio_path data w resp :
  fs w !! audio_path = Some data →
  tg_post E (length (trace w)) (SendAudio (audio_caption title link) data)
  = Some resp →
  ok resp = true →
  tg_send_audio E title link audio_path w
  = Ok tt (record_events [TgPost (SendAudio (audio_caption title link) data) true] w)
  ∧ ∃ before between after,
      audio_caption title link = before ++ title ++ between ++ link ++ after.
Proof.
  intros Hdata Hanswer Haccepted. split.
  - rewrite tg_send_audio_run, Hdata. unfold delivery_events, delivery_returns.
    cbn zeta. rewrite Hanswer, Haccepted. reflexivity.
  - exists (u "<b>"), (u "</b>" ++ nl ++ nl ++ u "🔗 <a href='"),
      (u "'>Читать полностью</a>").
    unfold audio_caption. rewrite <- !app_assoc. reflexivity.
Qed.

Lemma accepted_audio_sends_no_text_witness :
  let E := sample_env [] sample_now None None true ConnectionFailed true true in
  let w := put_file (u "/tmp/news.mp3") (Speech (u "Zero-day.")) empty_world in
  tg_send_audio E (u "Zero-day") (u "https://news.example/z") (u "/tmp/news.mp3") w
  = Ok tt (record_events
             [TgPost (SendAudio (audio_caption (u "Zero-day") (u "https://news.example/z"))
                        (Speech (u "Zero-day."))) true] w).
Proof.
  intros E w.
  refine (proj1 (accepted_audio_sends_no_text E (u "Zero-day")
                   (u "https://news.example/z") (u "/tmp/news.mp3")
                   (Speech (u "Zero-day.")) w _ _ _ _)).
  - vm_compute. reflexivity.
  - reflexivity.
  - reflexivity.
Defined.


(** ** Voice model cache: hits, downloads and failures *)

Lemma glob_files_elem E ext entries p :
  p ∈ glob_files E ext entries →
  ∃ rel, p = MODEL_CACHE_DIR E ++ u "/" ++ rel ∧ rel ∈ entries ∧
         top_level rel = true ∧ endswith rel ext = true.
Proof.
  unfold glob_files. intros Hp. apply list_elem_of_In, in_map_iff in Hp.
  destruct Hp as (rel & <- & Hrel). apply list_elem_of_In in Hrel.
  apply list_elem_of_filter in Hrel as [Hmatch Hrel].
  apply Is_true_true, andb_true_iff in Hmatch as [Htop Hext]. eauto.
Qed.

Lemma rglob_files_elem E ext entries p :
  p ∈ rglob_files E ext entries →
  ∃ rel, p = MODEL_CACHE_DIR E ++ u "/" ++ rel ∧ rel ∈ entries ∧
         endswith rel ext = true.
Proof.
  unfold rglob_files. intros Hp. apply list_elem_of_In, in_map_iff in Hp.
  destruct Hp as (rel & <- & Hrel). apply list_elem_of_In in Hrel.
  apply elem_of_app in Hrel as [Hrel|Hrel].
  - apply list_elem_of_filter in Hrel as [Hmatch Hrel].
    apply Is_true_true, andb_true_iff in Hmatch as [_ Hext]. eauto.
  - apply list_elem_of_In, in_flat_map in Hrel as (dir & _ & Hrel).
    apply list_elem_of_In in Hrel. unfold matches_in in Hrel.
    apply list_elem_of_filter in Hrel as [Hmatch Hrel].
    apply Is_true_true, andb_true_iff in Hmatch as [_ Hext]. eauto.
Qed.

(** The recursive scan lists the directory's own entries first. *)
Lemma rglob_files_app E ext entries :
  ∃ nested, rglob_files E ext entries = glob_files E ext entries ++ nested.
Proof. unfold rglob_files, glob_files. rewrite map_app. eauto. Qed.

(** An entry of the directory itself that matches is found by [glob]. *)
Lemma glob_files_finds E ext entries rel :
  rel ∈ entries → top_level rel = true → endswith rel ext = true →
  glob_files E ext entries ≠ [].
Proof.
  intros Hrel Htop Hext Hglob. unfold glob_files in Hglob.
  apply map_eq_nil in Hglob.
  eapply (filter_nil_not_elem_of _ _ rel); [exact Hglob| |exact Hrel].
  cbn beta. rewrite Htop, Hext. exact I.
Qed.

(** Creating entries adds them and keeps the others. *)
Lemma elem_of_place dir rel entries x :
  x ∈ place dir rel entries ↔ x = rel ∨ x ∈ entries.
Proof.
  induction entries as [|f rest IH]; simpl.
  - rewrite list_elem_of_singleton, elem_of_nil. tauto.
  - destruct (existsb (below dir) rest); [|destruct (below dir f)];
      rewrite !elem_of_cons, ?IH; tauto.
Qed.

Lemma elem_of_add_entry entries rel x :
  x ∈ add_entry entries rel ↔ x = rel ∨ x ∈ entries.
Proof.
  unfold add_entry. case_bool_decide as Hin.
  - split; [auto|]. intros [->|?]; assumption.
  - apply elem_of_place.
Qed.

Lemma elem_of_add_entries rels : ∀ entries x,
  x ∈ foldl add_entry entries rels ↔ x ∈ entries ∨ x ∈ rels.
Proof.
  induction rels as [|rel rels IH]; intros entries x; simpl.
  - rewrite elem_of_nil. tauto.
  - rewrite IH, elem_of_add_entry, elem_of_cons. tauto.
Qed.

Lemma elem_of_add_files rels : ∀ entries x,
  x ∈ add_files rels entries ↔
  x ∈ entries ∨ ∃ rel, rel ∈ rels ∧ x ∈ created_by rel.
Proof.
  unfold add_files. induction rels as [|rel rels IH]; intros entries x; simpl.
  - split; [auto|]. intros [?|(rel & Hrel & _)]; [assumption|]. inversion Hrel.
  - rewrite IH, elem_of_add_entries. split.
    + intros [[?|?]|(rel' & Hrel' & Hx)]; [auto| |].
      * right. exists rel. split; [apply elem_of_cons; auto | assumption].
      * right. exists rel'. split; [apply elem_of_cons; auto | assumption].
    + intros [?|(rel' & Hrel' & Hx)]; [auto|].
      apply elem_of_cons in Hrel' as [->|Hrel']; [auto|]. right. eauto.
Qed.


(** X10: an entry of the cache directory itself whose name ends with
    ".pth", a file or a folder, is a cache hit: the call returns the path
    of such an entry, with the path of an entry of the directory whose
    name ends with ".index" or the empty string, after one print and no
    other effect: no request is made and the directory is not changed. *)
Theorem cached_weights_returned_without_request E w rel :
  rel ∈ cache w → top_level rel = true → endswith rel (u ".pth") = true →
  ∃ pth index,
    download_model_if_needed E w
    = Ok (pth, index) (record_events [Stdout (LogModelCached pth)] w) ∧
    (∃ rel', pth = MODEL_CACHE_DIR E ++ u "/" ++ rel' ∧ rel' ∈ cache w ∧
             top_level rel' = true ∧ endswith rel' (u ".pth") = true) ∧
    (index = [] ∧ glob_files E (u ".index") (cache w) = [] ∨
     ∃ rel', index = MODEL_CACHE_DIR E ++ u "/" ++ rel' ∧ rel' ∈ cache w ∧
             top_level rel' = true ∧ endswith rel' (u ".index") = true).
Proof.
  intros Hrel Htop Hext.
  destruct (glob_files E (u ".pth") (cache w)) as [|pth rest] eqn:Hglob.
  { exfalso. eapply glob_files_finds; eassumption. }
  exists pth, (first_or_empty (glob_files E (u ".index") (cache w))).
  split; [apply (download_model_cached E w pth rest Hglob)|]. split.
  - apply glob_files_elem. rewrite Hglob. apply elem_of_cons. auto.
  - destruct (glob_files E (u ".index") (cache w)) as [|index rest'] eqn:Hindex;
      [left; auto|right].
    apply glob_files_elem. rewrite Hindex. apply elem_of_cons. auto.
Qed.

Lemma cached_weights_returned_without_request_witness :
  let E := sample_env (u "https://huggingface.example/kanevsky.zip") sample_now
             None None true ConnectionFailed true true in
  let w := set_cache [u "notes.txt"; u "kanevsky.pth"; u "weights.index";
                      u "weights.index/added.index"] empty_world in
  ∃ pth index,
    download_model_if_needed E w
    = Ok (pth, index) (record_events [Stdout (LogModelCached pth)] w) ∧
    (index = [] ∧ glob_files E (u ".index") (cache w) = [] ∨
     ∃ rel', index = MODEL_CACHE_DIR E ++ u "/" ++ rel' ∧ rel' ∈ cache w ∧
             top_level rel' = true ∧ endswith rel' (u ".index") = true).
Proof.
  intros E w.
  destruct (cached_weights_returned_without_request E w (u "kanevsky.pth"))
    as (pth & index & Hrun & _ & Hindex).
  - unfold w. cbn [cache set_cache]. rewrite !elem_of_cons. auto.
  - reflexivity.
  - reflexivity.
  - exists pth, index. split; [exact Hrun | exact Hindex].
Defined.

(** X11: when a call returns and a weights file then lies directly in the
    cache directory, every later call on that directory returns the same
    weights path as a cache hit, without a request. *)
Theorem downloaded_weights_found_next_run E w pth index w1 w2 :
  download_model_if_needed E w = Ok (pth, index) w1 →
  glob_files E (u ".pth") (cache w1) ≠ [] →
  cache w2 = cache w1 →
  ∃ index',
    download_model_if_needed E w2
    = Ok (pth, index') (record_events [Stdout (LogModelCached pth)] w2).
Proof.
  intros Hfirst Htop Hsame.
  assert (Hhead : ∃ rest, glob_files E (u ".pth") (cache w1) = pth :: rest).
  { rewrite download_model_if_needed_run in Hfirst. cbn zeta in Hfirst.
    destruct (glob_files E (u ".pth") (cache w)) as [|pth0 rest0] eqn:Hglob.
    - destruct (requests_get E _ _) as [|[|] [members|]]; try discriminate.
      cbn [cache set_cache record_events] in Hfirst.
      destruct (rglob_files_app E (u ".pth") (extracted members (cache w)))
        as [nested Hrglob].
      rewrite Hrglob in Hfirst.
      destruct (glob_files E (u ".pth") (extracted members (cache w)))
        as [|pth1 rest1] eqn:Hglob1.
      + destruct nested; inversion Hfirst; subst.
        cbn [cache set_cache] in Htop. congruence.
      + inversion Hfirst; subst. cbn [cache set_cache]. eauto.
    - inversion Hfirst; subst. cbn [cache record_events]. eauto. }
  destruct Hhead as [rest Hhead].
  eexists. apply (download_model_cached E w2 pth rest). rewrite Hsame. exact Hhead.
Qed.

Lemma downloaded_weights_found_next_run_witness :
  let url := u "https://huggingface.example/kanevsky.zip" in
  let archive := HttpStatus true (Some [u "kanevsky.pth"; u "added.index"]) in
  let E := sample_env url sample_now None None true archive true true in
  ∃ pth index index' w1,
    download_model_if_needed E empty_world = Ok (pth, index) w1 ∧
    download_model_if_needed E (set_cache (cache w1) empty_world)
    = Ok (pth, index')
         (record_events [Stdout (LogModelCached pth)] (set_cache (cache w1) empty_world)).
Proof.
  intros url archive E.
  destruct (download_model_if_needed E empty_world) as [[pth index] w1|e w1] eqn:Hfirst;
    [|vm_compute in Hfirst; discriminate Hfirst].
  destruct (downloaded_weights_found_next_run E empty_world pth index w1
              (set_cache (cache w1) empty_world) Hfirst) as [index' Hnext].
  - vm_compute in Hfirst. inversion Hfirst; subst. vm_compute. discriminate.
  - reflexivity.
  - exists pth, index, index', w1. split; [reflexivity | exact Hnext].
Defined.

(** X12: when no entry of the cache directory itself, file or folder, has
    a name ending with ".pth", a request that gets no answer or a
    non-success status makes the call raise after that one request; the
    cache directory and the files are left as they were. *)
Theorem failed_request_leaves_cache E w :
  glob_files E (u ".pth") (cache w) = [] →
  (∀ body, requests_get E (S (length (trace w))) (HF_MODEL_URL E)
           ≠ HttpStatus true body) →
  ∃ e w',
    download_model_if_needed E w = Raise e w' ∧
    (e = RequestException ∨ e = HTTPError) ∧
    cache w' = cache w ∧ fs w' = fs w ∧
    trace w' = trace w ++ [Stdout (LogModelDownloading (HF_MODEL_URL E));
                           HttpGet (HF_MODEL_URL E) false].
Proof.
  intros Hglob Hfailed. rewrite download_model_if_needed_run, Hglob. cbn zeta.
  destruct (requests_get E _ _) as [|[|] body];
    [| exfalso; apply (Hfailed body); reflexivity |];
    eexists _, _; (split; [reflexivity|]);
    (split; [auto|]); (split; [reflexivity|]); (split; [reflexivity|]);
    cbn [trace record_events]; trace_eq.
Qed.

Lemma failed_request_leaves_cache_witness :
  let E := sample_env (u "https://huggingface.example/kanevsky.zip") sample_now
             None None true (HttpStatus false None) true true in
  let w := set_cache [u "kanevsky"; u "kanevsky/kanevsky.pth"] empty_world in
  ∃ e w', download_model_if_needed E w = Raise e w' ∧ cache w' = cache w.
Proof.
  intros E w.
  destruct (failed_request_leaves_cache E w) as (e & w' & Hrun & _ & Hcache & _).
  - reflexivity.
  - intros body. discriminate.
  - exists e, w'. split; [exact Hrun | exact Hcache].
Defined.

(** X13: when no entry of the cache directory itself has a name ending
    with ".pth" and the downloaded body is not a zip archive, the call
    raises [BadZipFile] and the saved [model.zip] stays in the cache
    directory: its deletion comes after the extraction and is not
    reached. *)
Theorem bad_archive_left_in_cache E w :
  glob_files E (u ".pth") (cache w) = [] →
  requests_get E (S (length (trace w))) (HF_MODEL_URL E) = HttpStatus true None →
  ∃ w',
    download_model_if_needed E w = Raise BadZipFile w' ∧
    (u "model.zip" ∈ cache w') ∧
    (∀ rel, rel ∈ cache w' ↔ rel = u "model.zip" ∨ rel ∈ cache w).
Proof.
  intros Hglob Hbody. rewrite download_model_if_needed_run, Hglob. cbn zeta.
  rewrite Hbody. eexists. split; [reflexivity|].
  cbn [cache set_cache record_events].
  assert (Hall : ∀ rel, rel ∈ add_files [u "model.zip"] (cache w)
                        ↔ rel = u "model.zip" ∨ rel ∈ cache w).
  { intros rel. rewrite elem_of_add_files. split.
    - intros [Hold|(zip & Hzip & Hin)]; [auto|].
      apply list_elem_of_singleton in Hzip as ->.
      apply list_elem_of_singleton in Hin. auto.
    - intros [->|Hold]; [|auto]. right. exists (u "model.zip").
      split; apply list_elem_of_singleton; reflexivity. }
  split; [apply Hall; auto | exact Hall].
Qed.

Lemma bad_archive_left_in_cache_witness :
  let E := sample_env (u "https://huggingface.example/kanevsky.zip") sample_now
             None None true (HttpStatus true None) true true in
  ∃ w', download_model_if_needed E empty_world = Raise BadZipFile w' ∧
        u "model.zip" ∈ cache w'.
Proof.
  intros E.
  destruct (bad_archive_left_in_cache E empty_world) as (w' & Hrun & Hzip & _).
  - reflexivity.
  - reflexivity.
  - exists w'. split; [exact Hrun | exact Hzip].
Defined.



(** What a call that returns has returned: entries of the cache
    directory, at any depth, named as weights and as index. *)
Lemma download_model_returned E w pth index w' :
  download_model_if_needed E w = Ok (pth, index) w' →
  (∃ rel, pth = MODEL_CACHE_DIR E ++ u "/" ++ rel ∧ rel ∈ cache w' ∧
          endswith rel (u ".pth") = true) ∧
  (index = [] ∨
   ∃ rel, index = MODEL_CACHE_DIR E ++ u "/" ++ rel ∧ rel ∈ cache w' ∧
          endswith rel (u ".index") = true).
Proof.
  rewrite download_model_if_needed_run. cbn zeta.
  destruct (glob_files E (u ".pth") (cache w)) as [|pth0 rest0] eqn:Hglob.
  - destruct (requests_get E _ _) as [|[|] [members|]]; try discriminate.
    cbn [cache set_cache record_events].
    destruct (rglob_files E (u ".pth") _) as [|pth1 rest1] eqn:Hrglob; [discriminate|].
    intros Hrun. inversion Hrun; subst. cbn [cache set_cache]. split.
    + apply rglob_files_elem. rewrite Hrglob. apply elem_of_cons. auto.
    + destruct (rglob_files E (u ".index") _) as [|i rest] eqn:Hindex;
        [left; reflexivity|right].
      apply rglob_files_elem. rewrite Hindex. apply elem_of_cons. auto.
  - intros Hrun. inversion Hrun; subst. cbn [cache record_events]. split.
    + destruct (glob_files_elem E (u ".pth") (cache w) pth) as (rel & ? & ? & _ & ?);
        [rewrite Hglob; apply elem_of_cons; auto | eauto].
    + destruct (glob_files E (u ".index") (cache w)) as [|i rest] eqn:Hindex;
        [left; reflexivity|right].
      destruct (glob_files_elem E (u ".index") (cache w) i) as (rel & ? & ? & _ & ?);
        [rewrite Hindex; apply elem_of_cons; auto | eauto].
Qed.

(** X15: whenever the call returns, the weights path it returns names an
    entry of the cache directory or of a folder below it, a file or a
    folder, whose name ends with ".pth", and the index path is empty or
    names such an entry whose name ends with ".index". *)
Theorem returned_model_lies_in_cache E w pth index w' :
  download_model_if_needed E w = Ok (pth, index) w' →
  (∃ rel, pth = MODEL_CACHE_DIR E ++ u "/" ++ rel ∧ rel ∈ cache w' ∧
          endswith rel (u ".pth") = true) ∧
  (index = [] ∨
   ∃ rel, index = MODEL_CACHE_DIR E ++ u "/" ++ rel ∧ rel ∈ cache w' ∧
          endswith rel (u ".index") = true).
Proof. apply download_model_returned. Qed.

Lemma returned_model_lies_in_cache_witness :
  let archive := HttpStatus true (Some [u "weights.pth/readme.txt"]) in
  let E := sample_env (u "https://huggingface.example/kanevsky.zip") sample_now
             None None true archive true true in
  ∃ pth index w',
    download_model_if_needed E empty_world = Ok (pth, index) w' ∧
    pth = MODEL_CACHE_DIR E ++ u "/weights.pth" ∧
    (∃ rel, pth = MODEL_CACHE_DIR E ++ u "/" ++ rel ∧ rel ∈ cache w' ∧
            endswith rel (u ".pth") = true) ∧
    index = [].
Proof.
  intros archive E.
  destruct (download_model_if_needed E empty_world) as [[pth index] w'|e w'] eqn:Hrun;
    [|vm_compute in Hrun; discriminate Hrun].
  exists pth, index, w'. split; [reflexivity|].
  split; [vm_compute in Hrun; inversion Hrun; reflexivity|].
  split; [apply (returned_model_lies_in_cache E empty_world pth index w' Hrun)|].
  vm_compute in Hrun. inversion Hrun. reflexivity.
Defined.


(** ** Temporary files *)

Lemma endswith_app base suffix : endswith (base ++ suffix) suffix = true.
Proof. unfold endswith. rewrite rev_app_distr. apply startswith_app. Qed.

(** X16: the temporary speech file is created empty under a name that ends
    with ".mp3", and the three names derived from it (the converted file
    and the two WAV files) differ from it and from each other, so that no
    step of the conversion writes over its own input. *)
Theorem temporary_names_never_collide E w :
  ∃ tts_path w',
    named_temporary_file E (u ".mp3") w = Ok tts_path w' ∧
    endswith tts_path (u ".mp3") = true ∧
    fs w' !! tts_path = Some Blank ∧
    let rvc_path := replace tts_path (u ".mp3") (u "_kanevsky.mp3") in
    let wav_in := replace tts_path (u ".mp3") (u "_in.wav") in
    let wav_out := replace tts_path (u ".mp3") (u "_rvc.wav") in
    tts_path ≠ wav_in ∧ tts_path ≠ wav_out ∧ tts_path ≠ rvc_path ∧
    rvc_path ≠ wav_in ∧ rvc_path ≠ wav_out ∧ wav_in ≠ wav_out.
Proof.
  rewrite named_temporary_file_run. eexists _, _. split; [reflexivity|].
  split; [apply endswith_app|]. split; [apply lookup_insert_eq|].
  apply derived_names_distinct.
Qed.

(** [apply_rvc] on an input named [base ++ ".mp3"], when it returns. *)
Lemma apply_rvc_returns E base pth idx w w' :
  let mp3_in := base ++ u ".mp3" in
  let mp3_out := replace mp3_in (u ".mp3") (u "_kanevsky.mp3") in
  let wav_in := replace mp3_in (u ".mp3") (u "_in.wav") in
  let wav_out := replace mp3_in (u ".mp3") (u "_rvc.wav") in
  let index_path := if truthy idx then Some idx else None in
  apply_rvc E mp3_in mp3_out pth idx w = Ok tt w' →
  ∃ data,
    fs w !! mp3_in = Some data ∧
    fs w' = delete wav_out (delete wav_in
              (<[mp3_out := Transcoded (Voiced pth index_path (Transcoded data))]>
                 (fs w))) ∧
    cache w' = cache w ∧
    trace w' = trace w ++ [Ffmpeg mp3_in wav_in true; RvcLoadModel pth true;
                           RvcInferFile wav_in wav_out true;
                           Ffmpeg wav_out mp3_out true].
Proof.
  intros mp3_in mp3_out wav_in wav_out index_path.
  destruct (derived_names_distinct base) as (_ & _ & _ & Hout_in & Hout_out & Hwav).
  fold mp3_in in Hout_in, Hout_out, Hwav.
  fold mp3_out in Hout_in, Hout_out. fold wav_in in Hout_in, Hwav.
  fold wav_out in Hout_out, Hwav.
  unfold apply_rvc. fold mp3_in. fold wav_in. fold wav_out. fold index_path.
  run_m. destruct (rvc_import E _); [|discriminate]. rewrite ffmpeg_call.
  destruct (fs w !! mp3_in) as [data|] eqn:Hin; [|discriminate].
  destruct (ffmpeg_run E _ _ _); [|discriminate].
  cbn [length trace record_events put_file].
  destruct (rvc_load_model E _ _); [|discriminate].
  cbn [length trace record_events put_file fs cache].
  rewrite infer_file_call. cbn [length trace record_events put_file fs cache].
  rewrite lookup_insert_eq.
  destruct (rvc_infer_file E _ _ _ _); [|discriminate].
  rewrite ffmpeg_call. cbn [length trace record_events put_file fs cache].
  rewrite lookup_insert_eq.
  destruct (ffmpeg_run E _ _ _); [|discriminate].
  rewrite unlink_existing_run. intros Hrun. inversion Hrun; subst w'. clear Hrun.
  exists data. split; [reflexivity|]. split; [|split; [reflexivity|]].
  - apply map_eq. intros p. rewrite lookup_drop_files.
    cbn [fs put_file record_events].
    destruct (decide (p = wav_out)) as [->|Hp_out].
    { rewrite decide_True by (rewrite !elem_of_cons; auto).
      symmetry. apply lookup_delete_eq. }
    rewrite (lookup_delete_ne _ wav_out p) by congruence.
    destruct (decide (p = wav_in)) as [->|Hp_in].
    { rewrite decide_True by (rewrite !elem_of_cons; auto).
      symmetry. apply lookup_delete_eq. }
    rewrite (lookup_delete_ne _ wav_in p) by congruence.
    rewrite decide_False by (rewrite !elem_of_cons, elem_of_nil; tauto).
    destruct (decide (p = mp3_out)) as [->|Hp].
    { rewrite !lookup_insert_eq. reflexivity. }
    rewrite !lookup_insert_ne by congruence. reflexivity.
  - cbn [trace record_events drop_files put_file]. trace_eq.
Qed.

(** X17: when the conversion of a speech file returns, the converted file
    holds the re-encoded output of the model run on the re-encoded speech
    (guided by the index only when an index path is given), both WAV files
    are deleted, every other file, the speech file included, is as before,
    and exactly four tool runs were made, each successful. *)
Theorem conversion_success_effect E base pth idx w w' :
  let mp3_in := base ++ u ".mp3" in
  let mp3_out := replace mp3_in (u ".mp3") (u "_kanevsky.mp3") in
  let wav_in := replace mp3_in (u ".mp3") (u "_in.wav") in
  let wav_out := replace mp3_in (u ".mp3") (u "_rvc.wav") in
  let index_path := if truthy idx then Some idx else None in
  apply_rvc E mp3_in mp3_out pth idx w = Ok tt w' →
  ∃ data,
    fs w !! mp3_in = Some data ∧
    fs w' = delete wav_out (delete wav_in
              (<[mp3_out := Transcoded (Voiced pth index_path (Transcoded data))]>
                 (fs w))) ∧
    fs w' !! mp3_in = Some data ∧
    cache w' = cache w ∧
    trace w' = trace w ++ [Ffmpeg mp3_in wav_in true; RvcLoadModel pth true;
                           RvcInferFile wav_in wav_out true;
                           Ffmpeg wav_out mp3_out true].
Proof.
  intros mp3_in mp3_out wav_in wav_out index_path Hrun.
  destruct (apply_rvc_returns E base pth idx w w' Hrun)
    as (data & Hdata & Hfs & Hcache & Htrace).
  exists data. repeat (split; [assumption|]). split; [|auto].
  destruct (derived_names_distinct base) as (Hin & Hout & Hrvc & _).
  rewrite Hfs.
  rewrite lookup_delete_ne, lookup_delete_ne, lookup_insert_ne;
    [exact Hdata | | |]; apply not_eq_sym; assumption.
Qed.

Lemma conversion_success_effect_witness :
  let E := sample_env [] sample_now None None true ConnectionFailed true true in
  let w := put_file (u "/tmp/tmp4.mp3") (Speech (u "Zero-day.")) empty_world in
  ∃ w',
    apply_rvc E (u "/tmp/tmp4.mp3") (u "/tmp/tmp4_kanevsky.mp3")
      (u "kanevsky.pth") [] w = Ok tt w' ∧
    fs w' = <[u "/tmp/tmp4_kanevsky.mp3" :=
                Transcoded (Voiced (u "kanevsky.pth") None
                              (Transcoded (Speech (u "Zero-day."))))]> (fs w).
Proof.
  intros E w.
  destruct (apply_rvc E (u "/tmp/tmp4.mp3") (u "/tmp/tmp4_kanevsky.mp3")
              (u "kanevsky.pth") [] w) as [[] w'|e w'] eqn:Hrun;
    [|vm_compute in Hrun; discriminate Hrun].
  exists w'. split; [reflexivity|].
  destruct (conversion_success_effect E (u "/tmp/tmp4") (u "kanevsky.pth") [] w w' Hrun)
    as (data & Hdata & Hfs & _).
  vm_compute in Hdata. inversion Hdata; subst data.
  refine (eq_trans Hfs _). vm_compute. reflexivity.
Defined.

(** X18: when the conversion raises, nothing but the two WAV files and the
    converted file can have been written or left unfinished: every other
    file, the speech file included, is as before; the cached model files
    are untouched and only converter tools were run. *)
Theorem conversion_failure_effect E base pth idx w e w' :
  let mp3_in := base ++ u ".mp3" in
  let mp3_out := replace mp3_in (u ".mp3") (u "_kanevsky.mp3") in
  let wav_in := replace mp3_in (u ".mp3") (u "_in.wav") in
  let wav_out := replace mp3_in (u ".mp3") (u "_rvc.wav") in
  apply_rvc E mp3_in mp3_out pth idx w = Raise e w' →
  (∀ p, p ≠ wav_in → p ≠ wav_out → p ≠ mp3_out → fs w' !! p = fs w !! p) ∧
  fs w' !! mp3_in = fs w !! mp3_in ∧
  cache w' = cache w ∧
  ∃ d, trace w' = trace w ++ d ∧ Forall conversion_event d.
Proof.
  intros mp3_in mp3_out wav_in wav_out Hrun.
  destruct (derived_names_distinct base) as (Hin & Hout & Hrvc & Hrvc_in & Hrvc_out & _).
  destruct (apply_rvc_spec E base mp3_out pth idx w Hrvc_in Hrvc_out)
    as (d & Htrace & Hd & Hcache & Hframe & _).
  fold mp3_in in Htrace, Hcache, Hframe.
  rewrite Hrun in Htrace, Hcache, Hframe. cbn [world_of] in *.
  split; [exact Hframe|].
  split; [apply Hframe; assumption|]. split; [exact Hcache|]. eauto.
Qed.

Lemma conversion_failure_effect_witness :
  let E := littering
             (sample_env [] sample_now None None true ConnectionFailed false true) in
  let w := put_file (u "/tmp/tmp4.mp3") (Speech (u "Zero-day.")) empty_world in
  ∃ w',
    apply_rvc E (u "/tmp/tmp4.mp3") (u "/tmp/tmp4_kanevsky.mp3")
      (u "kanevsky.pth") [] w = Raise RvcError w' ∧
    fs w' !! u "/tmp/tmp4_rvc.wav" = Some Partial ∧
    fs w' !! u "/tmp/tmp4.mp3" = Some (Speech (u "Zero-day.")).
Proof.
  intros E w.
  destruct (apply_rvc E (u "/tmp/tmp4.mp3") (u "/tmp/tmp4_kanevsky.mp3")
              (u "kanevsky.pth") [] w) as [[] w'|e w'] eqn:Hrun;
    [vm_compute in Hrun; discriminate Hrun|].
  destruct (conversion_failure_effect E (u "/tmp/tmp4") (u "kanevsky.pth") [] w e w' Hrun)
    as (_ & Hin & _).
  exists w'. split; [vm_compute in Hrun; inversion Hrun; reflexivity|].
  split; [vm_compute in Hrun; inversion Hrun; reflexivity|].
  refine (eq_trans Hin _). vm_compute. reflexivity.
Defined.

(** ** Cleanup *)

(** The speech file of an article, once synthesized. *)
Lemma synthesize_files E a w speech w1 :
  synthesize E a w = Ok speech w1 →
  ∃ base,
    snd speech = base ++ u ".mp3" ∧
    fs w1 = <[snd speech := Speech (title a ++ u ". " ++ fst speech)]> (fs w) ∧
    cache w1 = cache w.
Proof.
  unfold synthesize. rewrite bind_run, print_run.
  destruct (summarize_to_russian_outcome E (title a) (content a)
              (record_events [Stdout (LogArticle (take 70 (title a)))] w))
    as (summary & d & Hsum & _).
  rewrite bind_run, Hsum, bind_run, print_run, bind_run, named_temporary_file_run.
  rewrite bind_run, tts_to_mp3_run. unfold ret.
  case_cond; [|discriminate].
  intros Hrun. inversion Hrun; subst speech w1. clear Hrun.
  eexists. split; [reflexivity|]. cbn [fst snd fs cache put_file record_events].
  split; [apply insert_insert_eq | reflexivity].
Qed.

(** X19: with conversion off, an article that is processed to its end
    leaves no file behind: the file system is what it was, less the name
    of the speech file; the cached model files are untouched. *)
Theorem unconverted_article_leaves_no_file E a rs w rs' w' :
  use_rvc rs = false →
  process_article E a rs w = Ok rs' w' →
  ∃ base, fs w' = delete (base ++ u ".mp3") (fs w) ∧ cache w' = cache w.
Proof.
  intros Hoff. rewrite process_article_run.
  destruct (synthesize E a w) as [speech w1|e w1] eqn:Hsyn; [|discriminate].
  destruct (synthesize_files E a w speech w1 Hsyn) as (base & Hname & Hfs & Hcache).
  rewrite convert_voice_disabled by assumption.
  destruct (fs w1 !! snd speech); [|discriminate].
  cbn zeta. case_cond; [|discriminate].
  intros Hrun. inversion Hrun; subst rs' w'. clear Hrun.
  exists base. split; [|exact Hcache].
  apply map_eq. intros p. unfold record_events at 1. cbn [fs].
  rewrite lookup_drop_files. cbn [fs record_events]. rewrite Hfs, Hname.
  destruct (decide (p = base ++ u ".mp3")) as [->|Hp].
  - rewrite decide_True by (apply elem_of_cons; auto).
    symmetry. apply lookup_delete_eq.
  - rewrite decide_False by (rewrite !elem_of_cons, elem_of_nil; tauto).
    rewrite lookup_insert_ne, lookup_delete_ne by congruence. reflexivity.
Qed.

Lemma unconverted_article_leaves_no_file_witness :
  let E := sample_env [] sample_now None None true ConnectionFailed true true in
  let rs := {| use_rvc := false; model_pth := []; model_index := [];
               total_sent := 0 |} in
  let w := put_file (u "/tmp/other.mp3") Blank empty_world in
  ∃ rs' w' base,
    process_article E sample_article rs w = Ok rs' w' ∧
    fs w' = delete (base ++ u ".mp3") (fs w) ∧ cache w' = cache w.
Proof.
  intros E rs w.
  destruct (process_article E sample_article rs w) as [rs' w'|e w'] eqn:Hrun;
    [|vm_compute in Hrun; discriminate Hrun].
  destruct (unconverted_article_leaves_no_file E sample_article rs w rs' w' eq_refl Hrun)
    as (base & Hfs & Hcache).
  exists rs', w', base. split; [reflexivity|]. split; [exact Hfs | exact Hcache].
Defined.

(** X20: with conversion on, when the conversion of an article's speech
    returns and the delivery of the converted file returns, the article is
    counted and nothing made for it is left: the speech file, the
    converted file and both WAV files are gone, and every other file is as
    before. *)
Theorem converted_article_leaves_no_file E a rs w speech w1 w2 w3 :
  let tts_path := snd speech in
  let rvc_path := replace tts_path (u ".mp3") (u "_kanevsky.mp3") in
  let wav_in := replace tts_path (u ".mp3") (u "_in.wav") in
  let wav_out := replace tts_path (u ".mp3") (u "_rvc.wav") in
  let converted :=
    Transcoded
      (Voiced (model_pth rs)
         (if truthy (model_index rs) then Some (model_index rs) else None)
         (Transcoded (Speech (title a ++ u ". " ++ fst speech)))) in
  use_rvc rs = true →
  synthesize E a w = Ok speech w1 →
  apply_rvc E tts_path rvc_path (model_pth rs) (model_index rs) w1 = Ok tt w2 →
  tg_send_audio E (title a) (link a) rvc_path (record_events [Stdout LogRvcOk] w2)
  = Ok tt w3 →
  ∃ w',
    process_article E a rs w = Ok (count_sent rs) w' ∧
    trace w3 = trace w2 ++ Stdout LogRvcOk
                 :: delivery_events E (S (length (trace w2))) (title a) (link a) converted ∧
    trace w' = trace w3 ++ [Stdout LogSent; Sleep 2] ∧
    fs w' = delete wav_out (delete wav_in (delete rvc_path (delete tts_path (fs w)))) ∧
    cache w' = cache w.
Proof.
  intros tts_path rvc_path wav_in wav_out converted Hon Hsyn Hrvc Hsent.
  destruct (synthesize_files E a w speech w1 Hsyn) as (base & Hname & Hfs1 & Hcache1).
  fold tts_path in Hname, Hfs1.
  destruct (derived_names_distinct base) as (Hin & Hout & Hkan & Hkan_in & Hkan_out & Hwav).
  rewrite <- Hname in Hin, Hout, Hkan, Hkan_in, Hkan_out, Hwav.
  fold rvc_path in Hkan, Hkan_in, Hkan_out. fold wav_in in Hin, Hkan_in, Hwav.
  fold wav_out in Hout, Hkan_out, Hwav.
  pose proof Hrvc as Hrvc'. unfold rvc_path in Hrvc'. rewrite Hname in Hrvc'.
  apply apply_rvc_returns in Hrvc' as (data & Hdata & Hfs2 & Hcache2 & _).
  rewrite <- Hname in Hdata, Hfs2. fold rvc_path wav_in wav_out in Hfs2.
  rewrite Hfs1, lookup_insert_eq in Hdata. inversion Hdata; subst data. clear Hdata.
  fold converted in Hfs2.
  assert (Hconverted : fs w2 !! rvc_path = Some converted).
  { rewrite Hfs2, !lookup_delete_ne by congruence. apply lookup_insert_eq. }
  assert (Hmoment : length (trace (record_events [Stdout LogRvcOk] w2))
                    = S (length (trace w2)))
    by (rewrite length_trace_record; cbn [length]; lia).
  assert (Hready : fs (record_events [Stdout LogRvcOk] w2) !! rvc_path = Some converted)
    by exact Hconverted.
  rewrite tg_send_audio_run, Hmoment, Hready in Hsent.
  destruct (delivery_returns E (S (length (trace w2))) (title a) (link a) converted)
    eqn:Hret; [|discriminate].
  injection Hsent as <-.
  pose proof (process_article_run E a rs w) as Hrun.
  rewrite Hsyn in Hrun. fold tts_path in Hrun.
  rewrite (convert_voice_succeeded E rs tts_path w1 w2 Hon Hrvc) in Hrun.
  fold rvc_path in Hrun. rewrite Hready in Hrun. cbn zeta in Hrun.
  rewrite Hmoment, Hret in Hrun.
  eexists. split; [exact Hrun|]. split; [|split; [|split]].
  - cbn [trace record_events]. trace_eq.
  - cbn [trace record_events drop_files]. trace_eq.
  - apply map_eq. intros p. unfold record_events at 1. cbn [fs].
    rewrite lookup_drop_files. cbn [fs record_events]. rewrite Hfs2, Hfs1.
    destruct (decide (p = wav_out)) as [->|Hp_out];
      [rewrite !lookup_delete_eq; case_decide; reflexivity|].
    rewrite !(lookup_delete_ne _ wav_out p) by congruence.
    destruct (decide (p = wav_in)) as [->|Hp_in];
      [rewrite !lookup_delete_eq; case_decide; reflexivity|].
    rewrite !(lookup_delete_ne _ wav_in p) by congruence.
    destruct (decide (p = rvc_path)) as [->|Hp_rvc].
    { rewrite decide_True by (rewrite !elem_of_cons; auto).
      symmetry. apply lookup_delete_eq. }
    rewrite (lookup_delete_ne _ rvc_path p) by congruence.
    destruct (decide (p = tts_path)) as [->|Hp_tts].
    { rewrite decide_True by (rewrite !elem_of_cons; auto).
      symmetry. apply lookup_delete_eq. }
    rewrite decide_False by (rewrite !elem_of_cons, elem_of_nil; tauto).
    rewrite !lookup_insert_ne, lookup_delete_ne by congruence. reflexivity.
  - cbn [cache record_events drop_files]. congruence.
Qed.

Lemma converted_article_leaves_no_file_witness :
  let E := sample_env (u "https://huggingface.example/kanevsky.zip") sample_now
             None None true ConnectionFailed true true in
  let w := put_file (u "/tmp/other.mp3") Blank empty_world in
  ∃ w', process_article E sample_article sample_state w
        = Ok (count_sent sample_state) w' ∧
        fs w' = fs w.
Proof.
  intros E w.
  edestruct (converted_article_leaves_no_file E sample_article sample_state w)
    as (w' & Hrun & _ & _ & Hfs & _).
  - reflexivity.
  - vm_compute. reflexivity.
  - vm_compute. reflexivity.
  - vm_compute. reflexivity.
  - exists w'. split; [exact Hrun|].
    refine (eq_trans Hfs _). vm_compute. reflexivity.
Defined.

(** X21: when the synthesis of an article's speech raises, its error
    leaves [process_article] at once, and the temporary file created for
    the speech is still on disk, holding whatever the failed synthesis
    left in it: the cleanup at the end of the loop body is not reached.
    No other file and no cached model file is touched. *)
Theorem failed_synthesis_leaves_temp_file E a rs w e w1 :
  synthesize E a w = Raise e w1 →
  process_article E a rs w = Raise e w1 ∧
  ∃ base,
    is_Some (fs w1 !! (base ++ u ".mp3")) ∧
    (∀ p, p ≠ base ++ u ".mp3" → fs w1 !! p = fs w !! p) ∧
    cache w1 = cache w.
Proof.
  intros Hsyn.
  split; [rewrite process_article_run, Hsyn; reflexivity|].
  destruct (synthesize_spec E a w)
    as (summary & base & d & _ & w1' & Hcache & Hframe
        & [(Hsyn' & _)|(Hsyn' & _ & Hfile)]);
    rewrite Hsyn in Hsyn'; inversion Hsyn'; subst e w1'.
  exists base. auto.
Qed.

Lemma failed_synthesis_leaves_temp_file_witness :
  let E := littering
             (sample_env [] sample_now None None false ConnectionFailed true true) in
  ∃ e w1 base,
    process_article E sample_article sample_state empty_world = Raise e w1 ∧
    is_Some (fs w1 !! (base ++ u ".mp3")) ∧
    fs w1 !! u "/tmp/tmp4.mp3" = Some Partial.
Proof.
  intros E.
  destruct (synthesize E sample_article empty_world) as [speech w1|e w1] eqn:Hsyn;
    [vm_compute in Hsyn; discriminate Hsyn|].
  destruct (failed_synthesis_leaves_temp_file E sample_article sample_state
              empty_world e w1 Hsyn) as (Hrun & base & Hfile & _).
  exists e, w1, base. split; [exact Hrun|]. split; [exact Hfile|].
  vm_compute in Hsyn. inversion Hsyn. reflexivity.
Defined.

(** ** Summary and model resolution *)

(** X22: when the summarization service answers and its first choice has
    text, the summary is that text with the whitespace at both ends
    removed, whatever the other choices hold; one request was made and no
    error was printed. *)
Theorem summary_is_first_choice_stripped E title content w message_content others :
  groq_create E (length (trace w)) (summary_prompt title content)
  = Some (Some message_content :: others) →
  summarize_to_russian E title content w
  = Ok (strip message_content)
       (record_events [GroqCreate (summary_prompt title content) true] w) ∧
  starts_with_space (strip message_content) = false ∧
  starts_with_space (rev (strip message_content)) = false.
Proof.
  intros Hanswer. split; [|apply strip_clean].
  rewrite summarize_to_russian_run. cbn zeta. rewrite Hanswer. reflexivity.
Qed.

Lemma summary_is_first_choice_stripped_witness :
  let answer := Some [Some (u "  Patch now. "); None] in
  let E := sample_env [] sample_now None answer true ConnectionFailed true true in
  ∃ w', summarize_to_russian E (u "Zero-day") (u "Details.") empty_world
        = Ok (u "Patch now.") w'.
Proof.
  intros answer E. eexists.
  refine (proj1 (summary_is_first_choice_stripped E (u "Zero-day") (u "Details.")
                   empty_world (u "  Patch now. ") [None] _)).
  reflexivity.
Defined.

(** X23: the run state left by the model resolution is consistent: with
    conversion on, a model source is configured and the weights path names
    an entry of the cache directory or of a folder below it, a file or a
    folder, whose name ends with ".pth" (the index path is empty or names
    such an entry whose name ends with ".index"); with conversion off,
    both paths are empty.  The count of sent articles starts at zero. *)
Theorem resolved_state_consistent E w rs0 w0 :
  resolve_model E w = Ok rs0 w0 →
  total_sent rs0 = 0%nat ∧
  (use_rvc rs0 = true →
   truthy (HF_MODEL_URL E) = true ∧
   (∃ rel, model_pth rs0 = MODEL_CACHE_DIR E ++ u "/" ++ rel ∧ rel ∈ cache w0 ∧
           endswith rel (u ".pth") = true) ∧
   (model_index rs0 = [] ∨
    ∃ rel, model_index rs0 = MODEL_CACHE_DIR E ++ u "/" ++ rel ∧ rel ∈ cache w0 ∧
           endswith rel (u ".index") = true)) ∧
  (use_rvc rs0 = false → model_pth rs0 = [] ∧ model_index rs0 = []).
Proof.
  rewrite resolve_model_run.
  destruct (truthy (HF_MODEL_URL E)) eqn:Hurl.
  - destruct (download_model_if_needed E w) as [[pth index] w1|e w1] eqn:Hload;
      intros Hrun; inversion Hrun; subst rs0 w0; cbn.
    + split; [reflexivity|]. split; [|discriminate]. intros _.
      split; [reflexivity|].
      apply (download_model_returned E w pth index w1 Hload).
    + split; [reflexivity|]. split; [discriminate | auto].
  - intros Hrun. inversion Hrun; subst rs0 w0; cbn.
    split; [reflexivity|]. split; [discriminate | auto].
Qed.

Lemma resolved_state_consistent_witness :
  let archive := HttpStatus true (Some [u "weights.pth/readme.txt"]) in
  let E := sample_env (u "https://huggingface.example/kanevsky.zip") sample_now
             None None true archive true true in
  ∃ rs0 w0,
    resolve_model E empty_world = Ok rs0 w0 ∧
    use_rvc rs0 = true ∧ total_sent rs0 = 0%nat ∧
    model_pth rs0 = MODEL_CACHE_DIR E ++ u "/weights.pth" ∧
    ∃ rel, model_pth rs0 = MODEL_CACHE_DIR E ++ u "/" ++ rel ∧ rel ∈ cache w0 ∧
           endswith rel (u ".pth") = true.
Proof.
  intros archive E.
  destruct (resolve_model E empty_world) as [rs0 w0|e w0] eqn:Hrun;
    [|vm_compute in Hrun; discriminate Hrun].
  destruct (resolved_state_consistent E empty_world rs0 w0 Hrun) as (Hzero & Hon & _).
  assert (Hrvc : use_rvc rs0 = true) by (vm_compute in Hrun; inversion Hrun; reflexivity).
  exists rs0, w0. split; [reflexivity|]. split; [exact Hrvc|]. split; [exact Hzero|].
  split; [vm_compute in Hrun; inversion Hrun; reflexivity|].
  apply (Hon Hrvc).
Defined.
